(** * Surge: the segmented download engine

    A shallow embedding of [package downloader]: the [Segment] data model,
    the seeding loop of [concurrentDownload], the sorts of the segment list,
    the split block of the Splitter goroutine, [newWorker], the body loop of
    [downloadSegment] and [printProgress].

    Go's [int64] is modelled as [Z] with the two's-complement wrap-around
    written out ([Int64.wrap]); Go's [int] (64 bits on the supported
    targets) is modelled the same way.  A [sync.Mutex] is a boolean that is
    [true] while the mutex is locked; [Lock] on a locked mutex does not
    return. *)

From Stdlib Require Import ZArith List Bool Lia SpecFloat Permutation Sorted.
From Stdlib Require String.
Import ListNotations.
Local Open Scope Z_scope.

(** ** 64-bit signed integers *)

Module Int64.

Definition modulus : Z := 2 ^ 64.
Definition min_int : Z := - 2 ^ 63.
Definition max_int : Z := 2 ^ 63 - 1.

(** Reduction of a mathematical integer to its [int64] representative. *)
Definition wrap (z : Z) : Z := (z + 2 ^ 63) mod modulus - 2 ^ 63.

Definition in_range (z : Z) : Prop := min_int <= z <= max_int.

Definition add (a b : Z) : Z := wrap (a + b).
Definition sub (a b : Z) : Z := wrap (a - b).
Definition mul (a b : Z) : Z := wrap (a * b).
(** Go's [/] truncates toward zero. *)
Definition quot (a b : Z) : Z := wrap (Z.quot a b).

End Int64.

(** ** Constants *)

Definition InitialSegments : Z := 8.
Definition MaxWorkers : Z := 128.
Definition MinSegmentSize : Z := 2 * 1024 * 1024.

(** ** Segments *)

(** [Segment] without its mutex and its file handle: the mutex is modelled
    where locking matters, the part file by the count [Downloaded] of the
    bytes written to it. *)
Record Segment : Type := mkSegment {
  ID : Z;
  Start : Z;
  End_ : Z;
  Downloaded : Z
}.

(** The value computed by the method [Remaining] of a segment. *)
Definition Remaining (s : Segment) : Z :=
  Int64.sub (Int64.add (Int64.sub (End_ s) (Start s)) 1) (Downloaded s).

(** ** Seeding (the loop [for i := 0; i < InitialSegments; i++]) *)

Definition segmentSizeOf (totalSize : Z) : Z :=
  Int64.quot totalSize InitialSegments.

(** One iteration of the seeding loop: the segment stored at index [i]. *)
Definition seedSegment (totalSize : Z) (i : Z) : Segment :=
  let segmentSize := segmentSizeOf totalSize in
  let start := Int64.mul i segmentSize in
  let end_ := Int64.sub (Int64.add start segmentSize) 1 in
  let end_ := if i =? InitialSegments - 1 then totalSize else end_ in
  mkSegment i start end_ 0.

Definition seedSegments (totalSize : Z) : list Segment :=
  map (fun i => seedSegment totalSize (Z.of_nat i))
      (seq 0 (Z.to_nat InitialSegments)).

(** The closed byte range of a segment. *)
Definition range (s : Segment) : Z * Z := (Start s, End_ s).

(** ** Sorting the segment slice

    [sort.Slice(segments, less)].  For slices shorter than 12 elements the Go
    library runs the insertion sort below ([insertionSortLessFunc]: every
    element is moved left while [less] holds against its left neighbour); for
    longer slices it runs pattern-defeating quicksort, which may order
    segments with equal keys differently.  The results below use that the
    sorted slice is a permutation of the input whose first element is
    extremal for [less]. *)

Section SortSlice.
Context {A : Type}.
Variable less : A -> A -> bool.

(** [bubble x p]: [p] is the sorted prefix in reverse (nearest neighbour
    first); [x] moves left while [less x y]. *)
Fixpoint bubble (x : A) (p : list A) : list A :=
  match p with
  | [] => [x]
  | y :: r => if less x y then y :: bubble x r else x :: y :: r
  end.

Fixpoint insertionSortRev (p l : list A) : list A :=
  match l with
  | [] => p
  | x :: r => insertionSortRev (bubble x p) r
  end.

Definition sortSlice (l : list A) : list A := rev (insertionSortRev [] l).
End SortSlice.

(** Line 213: descending by [Remaining]. *)
Definition sortByRemaining (segs : list Segment) : list Segment :=
  sortSlice (fun a b => Remaining b <? Remaining a) segs.

(** Line 267: ascending by [ID]. *)
Definition sortByID (segs : list Segment) : list Segment :=
  sortSlice (fun a b => ID a <? ID b) segs.

(** ** Calls that may not return *)

(** A call either returns or blocks for ever in [Lock] at the given source
    line: a [sync.Mutex] is not reentrant, so a goroutine that locks a mutex
    it holds waits for an [Unlock] that only it could make. *)
Inductive Call (A : Type) : Type :=
| Returns (a : A)
| Blocks (line : Z).
Arguments Returns {A} a.
Arguments Blocks {A} line.

(** The method [Remaining] (lines 34-38) as a call: line 35 locks the mutex
    of the segment, so a caller that holds this mutex blocks there; [held]
    says whether the caller does.  ([Remaining] above is the value the call
    returns.) *)
Definition callRemaining (held : bool) (s : Segment) : Call Z :=
  if held then Blocks 35 else Returns (Remaining s).

(** ** The split block of the Splitter (lines 212-241)

    The block on the segment slice and on the job queue, with the mutex of
    the segment it picks; [segmentsMu] and the order of the locks are
    modelled in [LockModel]. *)

(** The midpoint of line 224 for the value [Remaining] computes. *)
Definition midpointOf (s : Segment) : Z :=
  Int64.add (Int64.add (Start s) (Downloaded s))
            (Int64.quot (Remaining s) 2).

(** Line 226 on [largestSegment]. *)
Definition shrinkTo (midpoint : Z) (s : Segment) : Segment :=
  mkSegment (ID s) (Start s) midpoint (Downloaded s).

(** Line 238. *)
Definition newSegmentOf (newID midpoint newSegmentEnd : Z) : Segment :=
  mkSegment newID (Int64.add midpoint 1) newSegmentEnd 0.

Inductive SplitOutcome : Type :=
| SplitSkipped      (* line 218: the largest remaining is below MinSegmentSize *)
| SplitBlocked (line : Z) (* the goroutine blocks in Lock at this line *)
| SplitCreateFailed (* line 232: os.Create failed *)
| SplitDone (old new : Segment).

(** [createOK] is the outcome of [os.Create] for the new part file;
    [queue] is the content of [segmentChan].  Returns the segment slice, the
    queue and what happened.  The calls of [Remaining] made by the sort and
    at line 218 find the mutex of the segment free; the call of line 224
    comes after [largestSegment.mu.Lock()] of line 223. *)
Definition splitLargest (createOK : bool) (segs queue : list Segment)
  : list Segment * list Segment * SplitOutcome :=
  match sortByRemaining segs with
  | [] => ([], queue, SplitSkipped) (* segments[0] on an empty slice: never, the slice has at least 8 elements *)
  | largestSegment :: rest =>
    match callRemaining false largestSegment with       (* line 218 *)
    | Blocks line => (largestSegment :: rest, queue, SplitBlocked line)
    | Returns r =>
      if r <? MinSegmentSize then
        (largestSegment :: rest, queue, SplitSkipped)
      else
        (* line 223: largestSegment.mu.Lock() *)
        match callRemaining true largestSegment with    (* line 224 *)
        | Blocks line => (largestSegment :: rest, queue, SplitBlocked line)
        | Returns remaining =>
          let midpoint :=
            Int64.add (Int64.add (Start largestSegment)
                                 (Downloaded largestSegment))
                      (Int64.quot remaining 2) in
          let newSegmentEnd := End_ largestSegment in
          let old := shrinkTo midpoint largestSegment in
          let newID := Z.of_nat (length (largestSegment :: rest)) in
          if createOK then
            let newSegment := newSegmentOf newID midpoint newSegmentEnd in
            (old :: rest ++ [newSegment], queue ++ [newSegment],
             SplitDone old newSegment)
          else (old :: rest, queue, SplitCreateFailed)
        end
    end
  end.

(** ** Workers and the probe *)

Record Worker : Type := mkWorker { WID : Z }.

(** The part of the download state the Splitter and [newWorker] share:
    the [workers] slice with its mutex [workersMu], the counter of the
    [sync.WaitGroup], the segment slice, the job queue [segmentChan] and
    the variable [totalDownloaded] written by the progress goroutine. *)
Record Shared : Type := mkShared {
  workers : list Worker;
  workersMu : bool;
  wgCount : Z;
  segments : list Segment;
  segmentChan : list Segment;
  totalDownloaded : Z
}.

(** What the HTTP layer hands to [newWorker]. *)
Inductive ProbeResult : Type :=
| NewRequestError          (* http.NewRequestWithContext failed *)
| DoError                  (* d.Client.Do failed, the 5 s deadline included *)
| ProbeStatus (code : Z).  (* a response arrived *)

Inductive error : Type := ErrNewRequest | ErrDo.

Definition StatusPartialContent : Z := 206.
Definition StatusOK : Z := 200.

Definition registerWorker (st : Shared) : Shared :=
  let newWorkerID := Z.of_nat (length (workers st)) in
  mkShared (workers st ++ [mkWorker newWorkerID])
           false                      (* line 87: workersMu.Unlock() *)
           (wgCount st + 1)
           (segments st) (segmentChan st) (totalDownloaded st).

(** [newWorker], lines 53-93.  Returns the pair [(bool, error)] of the Go
    function and the state it leaves; nobody but the caller could unlock a
    [workersMu] that is locked when line 81 is reached. *)
Definition newWorker (probe : ProbeResult) (st : Shared)
  : Call (bool * option error * Shared) :=
  match probe with
  | NewRequestError => Returns (false, Some ErrNewRequest, st)
  | DoError => Returns (false, Some ErrDo, st)
  | ProbeStatus code =>
    if negb (code =? StatusPartialContent) && negb (code =? StatusOK) then
      Returns (false, None, st)
    else if workersMu st then Blocks 81   (* line 81: workersMu.Lock() *)
    else Returns (true, None, registerWorker st)
  end.

Definition withWorkersMu (b : bool) (st : Shared) : Shared :=
  mkShared (workers st) b (wgCount st) (segments st) (segmentChan st)
           (totalDownloaded st).

Definition withSegments (segs queue : list Segment) (st : Shared) : Shared :=
  mkShared (workers st) (workersMu st) (wgCount st) segs queue
           (totalDownloaded st).

Inductive TickOutcome : Type :=
| TickReturn                   (* line 201: the goroutine ends *)
| TickContinue (o : SplitOutcome) (created : bool).

(** One iteration of the Splitter loop, lines 198-247, for one tick of the
    ticker. *)
Definition splitterTick (totalSize : Z) (probe : ProbeResult)
    (createOK : bool) (st : Shared) : Call (Shared * TickOutcome) :=
  if totalSize <=? totalDownloaded st then Returns (st, TickReturn)
  else if workersMu st then Blocks 204  (* line 204: workersMu.Lock() *)
  else
    match newWorker probe (withWorkersMu true st) with
    | Blocks l => Blocks l
    | Returns (newWorkerCreated, err, st1) =>
      match err, newWorkerCreated with
      | None, true =>
        let '(segs, queue, o) :=
          splitLargest createOK (segments st1) (segmentChan st1) in
        match o with
        | SplitBlocked line => Blocks line
        | _ => Returns (withSegments segs queue st1, TickContinue o true)
        end
      | _, _ => Returns (st1, TickContinue SplitSkipped false)
      end
    end.

(** ** The body loop of [downloadSegment] (lines 332-378) *)

Inductive ReadError : Type := ReadNil | ReadEOF | ReadFailed.

(** One call of [resp.Body.Read(buffer)]: the byte count [n], with
    [0 <= n <= 32*1024], the error, and whether the following
    [segment.File.Write] fails. *)
Record ReadEvent : Type := mkRead {
  readN : Z;
  readErr : ReadError;
  writeFails : bool
}.

Definition bufferSize : Z := 32 * 1024.

Inductive Response : Type :=
| RespError                                  (* w.Client.Do failed *)
| Resp (status : Z) (body : list ReadEvent).

Inductive SegmentResult : Type :=
| SegOK | SegStatusError | SegReadError | SegWriteError | SegDoError.

(** Lines 365-367: [segment.Downloaded += int64(n)] under the segment's
    mutex. *)
Definition addDownloaded (n : Z) (s : Segment) : Segment :=
  mkSegment (ID s) (Start s) (End_ s) (Int64.add (Downloaded s) n).

(** The [for] loop of lines 358-375 over the reads the body delivers; a body
    that ends without an error event has reached [io.EOF]. *)
Fixpoint readLoop (body : list ReadEvent) (s : Segment)
  : Segment * SegmentResult :=
  match body with
  | [] => (s, SegOK)
  | r :: body' =>
    if (0 <? readN r) && writeFails r then (s, SegWriteError)
    else
      let s' :=
        if 0 <? readN r then addDownloaded (readN r) s else s in
      match readErr r with
      | ReadNil => readLoop body' s'
      | ReadEOF => (s', SegOK)
      | ReadFailed => (s', SegReadError)
      end
  end.

(** The [Range] header of line 339: first and last byte requested. *)
Definition rangeHeader (s : Segment) : Z * Z :=
  (Int64.add (Start s) (Downloaded s), End_ s).

Definition downloadSegment (resp : Response) (s : Segment)
  : Segment * SegmentResult :=
  match resp with
  | RespError => (s, SegDoError)
  | Resp status body =>
    if negb (status =? StatusPartialContent) && negb (status =? StatusOK)
    then (s, SegStatusError)
    else readLoop body s
  end.

(** The data-model invariant of a segment. *)
Definition segmentInv (s : Segment) : Prop :=
  0 <= Downloaded s <= End_ s - Start s + 1.

Definition segmentInvb (s : Segment) : bool :=
  (0 <=? Downloaded s) && (Downloaded s <=? End_ s - Start s + 1).

(** ** Finalizer: the segment slice in merge order (lines 266-269) *)

Definition mergeOrder (segs : list Segment) : list Segment := sortByID segs.

(** [contiguous lo hi rs]: the ranges [rs], in this order, tile the interval
    [lo..hi]: the first starts at [lo], each next one starts one past the end
    of the one before, and the last ends at [hi]. *)
Fixpoint contiguous (lo hi : Z) (rs : list (Z * Z)) : bool :=
  match rs with
  | [] => lo =? hi + 1
  | (a, b) :: rs' => (a =? lo) && contiguous (b + 1) hi rs'
  end.

(** ** float64

    IEEE 754 binary64 through the executable specification [SpecFloat] of
    the Standard Library ([prec = 53], [emax = 1024], rounding to nearest
    even). *)

Module F64.

Definition prec : Z := 53.
Definition emax : Z := 1024.

Definition float64 : Type := spec_float.

(** The conversion [float64(x)] of an integer. *)
Definition of_int (z : Z) : float64 := binary_normalize prec emax z 0 false.

Definition add : float64 -> float64 -> float64 := SFadd prec emax.
Definition mul : float64 -> float64 -> float64 := SFmul prec emax.
Definition div : float64 -> float64 -> float64 := SFdiv prec emax.
Definition eqb : float64 -> float64 -> bool := SFeqb.
Definition ltb : float64 -> float64 -> bool := SFltb.
Definition leb : float64 -> float64 -> bool := SFleb.

Definition zero : float64 := S754_zero false.

(** The conversion [int64(f)]: truncation toward zero.  Outside the range of
    [int64] the Go specification leaves the value to the implementation;
    amd64 yields the smallest [int64]. *)
Definition to_int64 (f : float64) : Z :=
  match f with
  | S754_zero _ => 0
  | S754_finite sg m e =>
    let mag := if 0 <=? e then Z.pos m * 2 ^ e else Z.pos m / 2 ^ (- e) in
    let v := if sg then - mag else mag in
    if (Int64.min_int <=? v) && (v <=? Int64.max_int) then v
    else Int64.min_int
  | _ => Int64.min_int
  end.

End F64.

(** ** Progress reporting *)

Definition Second : Z := 1000000000.

(** [Duration.Seconds]: [float64(d / Second) + float64(d % Second) / 1e9]. *)
Definition Seconds (d : Z) : F64.float64 :=
  F64.add (F64.of_int (Int64.quot d Second))
          (F64.div (F64.of_int (Z.rem d Second)) (F64.of_int 1000000000)).

(** Modelled from the spec: the struct [Downloader] is declared in another
    file of the package; of its fields [printProgress] uses the mutex [mu]
    and the slice [bytesDownloadedPerSecond], the progress window of the
    spec. *)
Record Downloader : Type := mkDownloader {
  bytesDownloadedPerSecond : list Z
}.

Definition windowCap : nat := 30.

(** Lines 388-391. *)
Definition pushSample (sample : Z) (window : list Z) : list Z :=
  let w := window ++ [sample] in
  if (windowCap <? length w)%nat then tl w else w.

Definition sumInt64 (l : list Z) : Z := fold_left Int64.add l 0.

(** Lines 393-400. *)
Definition averageSpeed (window : list Z) : F64.float64 :=
  if (0 <? length window)%nat then
    F64.div (F64.of_int (sumInt64 window))
            (F64.of_int (Z.of_nat (length window)))
  else F64.zero.

(** Lines 405-408. *)
Definition remainingBytesOf (written total : Z) : Z :=
  let remainingBytes := Int64.sub total written in
  if remainingBytes <? 0 then 0 else remainingBytes.

(** Lines 414-417. *)
Definition percentOf (written total : Z) : F64.float64 :=
  let pct :=
    F64.mul (F64.div (F64.of_int written) (F64.of_int total))
            (F64.of_int 100) in
  if F64.ltb (F64.of_int 100) pct then F64.of_int 100 else pct.

(** The ETA of lines 403-411 before it is turned into a string: the clamped
    remaining bytes and the remaining seconds, or nothing for ["N/A"]. *)
Definition etaOf (written total : Z) (avgSpeed : F64.float64)
  : option (Z * F64.float64) :=
  if (0 <? total) && F64.ltb F64.zero avgSpeed then
    let remainingBytes := remainingBytesOf written total in
    Some (remainingBytes,
          F64.div (F64.of_int remainingBytes)
                  (F64.mul avgSpeed (F64.of_int 1024)))
  else None.

(** The values formatted into the progress line written to [os.Stderr]. *)
Inductive ProgressLine : Type :=
| LineWithTotal (pct : F64.float64) (written total : Z)
                (avgSpeed : F64.float64) (eta : option (Z * F64.float64))
| LineNoTotal (written : Z) (avgSpeed : F64.float64).

(** [printProgress], lines 380-422; [since] is the [Duration] returned by
    [time.Since(start)].  Returns the downloader and the line written, if
    any. *)
Definition printProgress (d : Downloader) (written total since : Z)
  : Downloader * option ProgressLine :=
  let elapsed := Seconds since in
  if F64.eqb elapsed F64.zero then (d, None)
  else
    let speed :=
      F64.div (F64.div (F64.of_int written) (F64.of_int 1024)) elapsed in
    let window := pushSample (F64.to_int64 speed) (bytesDownloadedPerSecond d) in
    let avgSpeed := averageSpeed window in
    let eta := etaOf written total avgSpeed in
    let line :=
      if 0 <? total then
        LineWithTotal (percentOf written total) written total avgSpeed eta
      else LineNoTotal written avgSpeed in
    (mkDownloader window, Some line).

(** The percentage of an emitted line, if it has one. *)
Definition linePct (l : ProgressLine) : option F64.float64 :=
  match l with
  | LineWithTotal pct _ _ _ _ => Some pct
  | LineNoTotal _ _ => None
  end.

(** The remaining bytes behind the ETA of an emitted line, if an ETA was
    computed. *)
Definition lineRemainingBytes (l : ProgressLine) : option Z :=
  match l with
  | LineWithTotal _ _ _ _ (Some (rb, _)) => Some rb
  | _ => None
  end.

(** ** The mutexes and the goroutines that take them

    Every goroutine is reduced to the sequence of [Lock] and [Unlock] calls
    it makes in one pass through its loop; the goroutines interleave, and a
    [Lock] on a locked mutex cannot proceed. *)

Module LockModel.

Inductive Lock : Type :=
| StoreMu            (* segmentsMu *)
| PoolMu             (* workersMu *)
| SegMu (id : Z)     (* the mu of the segment with this ID *)
| ProgressMu.        (* d.mu *)

Inductive Thread : Type :=
| Progress           (* the goroutine of lines 173-192 *)
| Splitter           (* the goroutine of lines 194-248 *)
| WorkerT (w : Z)    (* Worker.start *)
| Main.              (* concurrentDownload after wg.Wait() *)

Inductive Op : Type := Acquire (l : Lock) | Release (l : Lock).

Definition lock_eqb (a b : Lock) : bool :=
  match a, b with
  | StoreMu, StoreMu | PoolMu, PoolMu | ProgressMu, ProgressMu => true
  | SegMu i, SegMu j => i =? j
  | _, _ => false
  end.

Definition thread_eqb (a b : Thread) : bool :=
  match a, b with
  | Progress, Progress | Splitter, Splitter | Main, Main => true
  | WorkerT i, WorkerT j => i =? j
  | _, _ => false
  end.

(** [s.mu.Lock(); ...; s.mu.Unlock()]: the method [Remaining], the body of
    the loop of lines 177-181 and lines 365-367. *)
Definition segmentOps (id : Z) : list Op :=
  [Acquire (SegMu id); Release (SegMu id)].

(** [printProgress] takes [d.mu] unless it returns at line 383. *)
Definition printProgressOps (elapsedZero : bool) : list Op :=
  if elapsedZero then [] else [Acquire ProgressMu; Release ProgressMu].

(** One pass of the progress goroutine over the segments with these IDs. *)
Definition progressPath (ids : list Z) (elapsedZero : bool) : list Op :=
  [Acquire StoreMu] ++ flat_map segmentOps ids ++ [Release StoreMu]
    ++ printProgressOps elapsedZero.

(** [newWorker]: lines 81-87 when the probe is accepted. *)
Definition newWorkerOps (accepted : bool) : list Op :=
  if accepted then [Acquire PoolMu; Release PoolMu] else [].

(** The calls of [less] made by [sort.Slice] at line 213: each compares the
    [Remaining] of two segments. *)
Definition sortOps (cmps : list (Z * Z)) : list Op :=
  flat_map (fun c => segmentOps (fst c) ++ segmentOps (snd c)) cmps.

(** Lines 212-241 for the segment [largest] picked at line 216. *)
Definition splitOps (cmps : list (Z * Z)) (largest : Z) (small : bool)
  : list Op :=
  [Acquire StoreMu] ++ sortOps cmps ++ segmentOps largest
    ++ (if small then [Release StoreMu]
        else [Acquire (SegMu largest)]      (* line 223 *)
               ++ segmentOps largest        (* line 224: Remaining() *)
               ++ [Release (SegMu largest)] (* line 227 *)
               ++ [Release StoreMu]).       (* line 234 or 241 *)

(** One iteration of the Splitter loop that passes line 200.  After a
    rejected probe the iteration ends at line 208 without unlocking. *)
Definition splitterPath (accepted : bool) (cmps : list (Z * Z))
    (largest : Z) (small : bool) : list Op :=
  [Acquire PoolMu]                          (* line 204 *)
    ++ newWorkerOps accepted
    ++ (if accepted then splitOps cmps largest small else []).

(** A worker adding one chunk to [Downloaded]. *)
Definition workerPath (seg : Z) : list Op := segmentOps seg.

(** Lines 253-288. *)
Definition mainPath (elapsedZero : bool) : list Op :=
  printProgressOps elapsedZero ++ [Acquire StoreMu; Release StoreMu].

(** The passes a goroutine may start. *)
Inductive path : Thread -> list Op -> Prop :=
| path_progress ids z : path Progress (progressPath ids z)
| path_splitter a cmps largest small :
    path Splitter (splitterPath a cmps largest small)
| path_worker w seg : path (WorkerT w) (workerPath seg)
| path_main z : path Main (mainPath z).

(** The holder of every mutex and what every goroutine has left to do in
    its current pass. *)
Record State : Type := mkState {
  owner : Lock -> option Thread;
  cont : Thread -> list Op
}.

Definition init : State := mkState (fun _ => None) (fun _ => []).

Definition setOwner (l : Lock) (o : option Thread) (st : State) : State :=
  mkState (fun l' => if lock_eqb l' l then o else owner st l') (cont st).

Definition setCont (t : Thread) (k : list Op) (st : State) : State :=
  mkState (owner st) (fun t' => if thread_eqb t' t then k else cont st t').

Definition holds (st : State) (t : Thread) (l : Lock) : Prop :=
  owner st l = Some t.

(** A step of goroutine [t]; the label is the mutex operation performed, if
    any. *)
Inductive step : State -> Thread -> option Op -> State -> Prop :=
| step_start st t p :
    cont st t = [] -> path t p ->
    step st t None (setCont t p st)
| step_acquire st t l k :
    cont st t = Acquire l :: k -> owner st l = None ->
    step st t (Some (Acquire l)) (setOwner l (Some t) (setCont t k st))
| step_release st t l k :
    cont st t = Release l :: k -> owner st l <> None ->
    step st t (Some (Release l)) (setOwner l None (setCont t k st)).

Inductive reachable : State -> Prop :=
| reach_init : reachable init
| reach_step st t o st' : reachable st -> step st t o st' -> reachable st'.

End LockModel.

(** ** Whole-download helpers *)

(** Every seeded segment goes through the job queue once and is handed to
    one worker; [respFor id] is the response that worker gets for the
    segment [id]. *)
Definition downloadAll (respFor : Z -> Response) (segs : list Segment)
  : list Segment :=
  map (fun s => fst (downloadSegment (respFor (ID s)) s)) segs.

(** The shared state when the Splitter goroutine starts (lines 134-171). *)
Definition initialShared (totalSize : Z) : Shared :=
  let segs := seedSegments totalSize in
  mkShared (map (fun i => mkWorker (Z.of_nat i))
                (seq 0 (Z.to_nat InitialSegments)))
           false InitialSegments segs segs 0.

(** A status-200 answer carrying a whole file of [size] bytes, read through
    the 32 KiB buffer. *)
Definition wholeBody (size : Z) : list ReadEvent :=
  repeat (mkRead bufferSize ReadNil false) (Z.to_nat (size / bufferSize))
    ++ [mkRead (size mod bufferSize) ReadEOF false].

(** ** Vocabulary of the properties *)

(** The statuses a probe or a segment request is satisfied with. *)
Definition accepted (code : Z) : bool :=
  (code =? StatusPartialContent) || (code =? StatusOK).

(** The offsets of a segment are non-negative and the two sums the code
    forms from them, [Start + Downloaded] (line 339) and [End + 1]
    (line 37), fit [int64]. *)
Definition offsetsFit (s : Segment) : Prop :=
  0 <= Start s /\ 0 <= Downloaded s /\
  Start s + Downloaded s <= Int64.max_int /\
  -1 <= End_ s < Int64.max_int.

(** The midpoint of the specification, over the integers. *)
Definition specMidpoint (s : Segment) : Z :=
  Start s + Downloaded s + (End_ s - Start s + 1 - Downloaded s) / 2.

(** [s'] is a later state of the segment [s]. *)
Definition sameSegment (s s' : Segment) : Prop :=
  ID s' = ID s /\ Start s' = Start s /\ End_ s' <= End_ s.

(** Every segment of [segs] has its later state in [segs'], and [segs']
    holds nothing else but newly created segments. *)
Definition descends (segs segs' : list Segment) : Prop :=
  exists kept news,
    Forall2 sameSegment segs kept /\ Permutation segs' (kept ++ news).

(** The statements that write to the segment slice or to a segment once
    the download runs: a chunk, the split block as it runs, the two writes
    of the split block that lie behind the [Lock] of line 224 (the
    assignment to [End] of a segment that has passed the test of line 218,
    and the append of a new segment), and the merge sort. *)
Inductive segStep : list Segment -> list Segment -> Prop :=
| step_chunk l1 s l2 n :            (* lines 365-367 *)
    segStep (l1 ++ s :: l2) (l1 ++ addDownloaded n s :: l2)
| step_split createOK segs queue :  (* lines 212-241 *)
    segStep segs (fst (fst (splitLargest createOK segs queue)))
| step_end l1 s l2 :                (* line 226 *)
    MinSegmentSize <= Remaining s ->
    segStep (l1 ++ s :: l2) (l1 ++ shrinkTo (midpointOf s) s :: l2)
| step_append segs newID midpoint newSegmentEnd : (* line 239 *)
    segStep segs (segs ++ [newSegmentOf newID midpoint newSegmentEnd])
| step_merge segs :                 (* lines 267-269 *)
    segStep segs (mergeOrder segs).

(** Runs of such statements through states whose offsets fit. *)
Inductive evolves : list Segment -> list Segment -> Prop :=
| evolves_refl segs : evolves segs segs
| evolves_step segs1 segs2 segs3 :
    Forall offsetsFit segs1 -> segStep segs1 segs2 -> evolves segs2 segs3 ->
    evolves segs1 segs3.

(** The progress goroutine and the final report call [printProgress] again
    and again on the same downloader; a call is [(written, total, since)]. *)
Definition progressRun (calls : list (Z * Z * Z)) (d : Downloader)
  : Downloader :=
  fold_left (fun d c => fst (printProgress d (fst (fst c)) (snd (fst c)) (snd c)))
            calls d.

(** The progress goroutine on its way into the loop over the segments:
    started, then holding [segmentsMu], then holding the mutex of segment 0
    too. *)
Definition progressStarted : LockModel.State :=
  LockModel.setCont LockModel.Progress (LockModel.progressPath [0] false)
    LockModel.init.

Definition progressHoldsStore : LockModel.State :=
  LockModel.setOwner LockModel.StoreMu (Some LockModel.Progress)
    (LockModel.setCont LockModel.Progress
       (tl (LockModel.progressPath [0] false)) progressStarted).

Definition progressInLoop : LockModel.State :=
  LockModel.setOwner (LockModel.SegMu 0) (Some LockModel.Progress)
    (LockModel.setCont LockModel.Progress
       (tl (tl (LockModel.progressPath [0] false))) progressHoldsStore).

(** * Properties *)

(** ** int64 arithmetic *)

Lemma wrap_small (z : Z) : Int64.in_range z -> Int64.wrap z = z.
Proof.
  unfold Int64.in_range, Int64.wrap, Int64.modulus, Int64.min_int,
    Int64.max_int.
  intros H. rewrite Z.mod_small; lia.
Qed.

Lemma wrap_in_range (z : Z) : Int64.in_range (Int64.wrap z).
Proof.
  unfold Int64.in_range, Int64.wrap, Int64.modulus, Int64.min_int,
    Int64.max_int.
  assert (H : 0 <= (z + 2 ^ 63) mod 2 ^ 64 < 2 ^ 64)
    by (apply Z.mod_pos_bound; lia).
  lia.
Qed.

Lemma in_range_bounds (z : Z) :
  Int64.in_range z <-> - 9223372036854775808 <= z <= 9223372036854775807.
Proof. unfold Int64.in_range, Int64.min_int, Int64.max_int. lia. Qed.

(** Rewrites every wrapped operation whose result is shown to fit. *)
Ltac unwrap_inner :=
  match goal with
  | |- context [Int64.wrap ?z] =>
    lazymatch z with
    | context [Int64.wrap _] => fail
    | _ => rewrite (wrap_small z) by (apply in_range_bounds; lia)
    end
  end.

Ltac unwrap :=
  unfold Int64.add, Int64.sub, Int64.mul, Int64.quot;
  repeat unwrap_inner.

(** ** The sort *)

Section SortFacts.
Context {A : Type}.
Variable less : A -> A -> bool.

(** No element is out of order against its predecessor. *)
Fixpoint inOrder (l : list A) : Prop :=
  match l with
  | [] => True
  | y :: r =>
    match r with
    | [] => True
    | x :: _ => less x y = false /\ inOrder r
    end
  end.

Lemma insertionSortRev_inOrder (l p : list A) :
  inOrder (rev p ++ l) -> insertionSortRev less p l = rev l ++ p.
Proof.
  revert p. induction l as [| x r IH]; intros p H; simpl.
  - reflexivity.
  - assert (Hb : bubble less x p = x :: p).
    { destruct p as [| y q]; simpl; [ reflexivity | ].
      simpl in H. rewrite <- app_assoc in H. simpl in H.
      clear IH. induction (rev q) as [| z w IHw]; simpl in H.
      - destruct H as [H _]. now rewrite H.
      - destruct w; simpl in *; apply IHw; tauto. }
    rewrite Hb, IH.
    + now rewrite <- app_assoc.
    + simpl. now rewrite <- app_assoc.
Qed.

Lemma sortSlice_inOrder (l : list A) : inOrder l -> sortSlice less l = l.
Proof.
  intros H. unfold sortSlice.
  rewrite insertionSortRev_inOrder by exact H.
  now rewrite app_nil_r, rev_involutive.
Qed.
End SortFacts.

(** ** Seeding *)

(** C3: with total_size = 10,000,003 and InitialSegments = 8 the seeding
    step uses segmentSize = 1,250,000; the first seven segments are, in
    order, the ranges [i*1,250,000 .. (i+1)*1,250,000 - 1] for i = 0..6,
    together [0 .. 8,749,999], and the eighth segment starts at 8,750,000
    and ends at 10,000,003, its end being total_size. *)
Theorem seed_odd_remainder :
  segmentSizeOf 10000003 = 1250000 /\
  map range (firstn 7 (seedSegments 10000003)) =
    map (fun i => (i * 1250000, (i + 1) * 1250000 - 1)) [0; 1; 2; 3; 4; 5; 6] /\
  contiguous 0 8749999 (map range (firstn 7 (seedSegments 10000003))) = true /\
  map range (skipn 7 (seedSegments 10000003)) = [(8750000, 10000003)] /\
  length (seedSegments 10000003) = 8%nat /\
  End_ (last (seedSegments 10000003) (mkSegment 0 0 0 0)) = 10000003.
Proof. repeat split; reflexivity. Qed.

(** A download changes neither the range nor the ID of its segment. *)
Lemma readLoop_frame (body : list ReadEvent) (s : Segment) :
  ID (fst (readLoop body s)) = ID s /\
  Start (fst (readLoop body s)) = Start s /\
  End_ (fst (readLoop body s)) = End_ s.
Proof.
  revert s. induction body as [| r body IH]; intros s; simpl.
  - auto.
  - destruct ((0 <? readN r) && writeFails r); simpl; [ auto | ].
    destruct (readErr r); simpl.
    + destruct (IH (if 0 <? readN r then addDownloaded (readN r) s else s))
        as (H1 & H2 & H3).
      rewrite H1, H2, H3. destruct (0 <? readN r); auto.
    + destruct (0 <? readN r); auto.
    + destruct (0 <? readN r); auto.
Qed.

Lemma downloadSegment_frame (resp : Response) (s : Segment) :
  ID (fst (downloadSegment resp s)) = ID s /\
  range (fst (downloadSegment resp s)) = range s.
Proof.
  unfold range. destruct resp as [| status body]; simpl; [ auto | ].
  destruct (negb (status =? StatusPartialContent) && negb (status =? StatusOK));
    simpl; [ auto | ].
  destruct (readLoop_frame body s) as (H1 & H2 & H3).
  now rewrite H1, H2, H3.
Qed.

Lemma downloadAll_frame (respFor : Z -> Response) (segs : list Segment) :
  map ID (downloadAll respFor segs) = map ID segs /\
  map range (downloadAll respFor segs) = map range segs.
Proof.
  unfold downloadAll. rewrite !map_map. split; apply map_ext; intros s;
    apply downloadSegment_frame.
Qed.

(** Segments whose IDs ascend are left in place by the merge sort order. *)
Lemma mergeOrder_ascending (segs : list Segment) :
  inOrder (fun a b => a <? b) (map ID segs) -> mergeOrder segs = segs.
Proof.
  intros H. unfold mergeOrder, sortByID. apply sortSlice_inOrder.
  induction segs as [| y r IH]; simpl in *; [ exact I | ].
  destruct r as [| x r']; simpl in *; [ exact I | ].
  destruct H as [H1 H2]. split; [ exact H1 | apply IH, H2 ].
Qed.

(** The seeded segment at index [i], without the wrap-around. *)
Lemma seedSegment_plain (totalSize i : Z) :
  0 <= totalSize <= Int64.max_int -> 0 <= i <= 7 ->
  seedSegment totalSize i =
    mkSegment i (i * (totalSize / 8))
              (if i =? 7 then totalSize
               else i * (totalSize / 8) + totalSize / 8 - 1) 0.
Proof.
  unfold Int64.max_int. intros H Hi.
  assert (Hq : 0 <= totalSize / 8 /\ 8 * (totalSize / 8) <= totalSize).
  { split; [ apply Z.div_pos; lia | apply Z.mul_div_le; lia ]. }
  unfold seedSegment, segmentSizeOf, InitialSegments, Int64.quot.
  rewrite Z.quot_div_nonneg by lia.
  change (8 - 1) with 7.
  rewrite (wrap_small (totalSize / 8))
    by (apply in_range_bounds; lia).
  unfold Int64.mul. rewrite (wrap_small (i * (totalSize / 8)))
    by (apply in_range_bounds; nia).
  unfold Int64.add. rewrite wrap_small by (apply in_range_bounds; nia).
  unfold Int64.sub. rewrite wrap_small by (apply in_range_bounds; nia).
  reflexivity.
Qed.

(** The seeded ranges, in order, tile [0 .. total_size] for every size. *)
Lemma seed_tiles_through_total_size (totalSize : Z) :
  0 <= totalSize <= Int64.max_int ->
  contiguous 0 totalSize (map range (seedSegments totalSize)) = true.
Proof.
  intros H. unfold seedSegments.
  change (Z.to_nat InitialSegments) with 8%nat. cbv [seq map].
  change (Z.of_nat 0) with 0. change (Z.of_nat 1) with 1.
  change (Z.of_nat 2) with 2. change (Z.of_nat 3) with 3.
  change (Z.of_nat 4) with 4. change (Z.of_nat 5) with 5.
  change (Z.of_nat 6) with 6. change (Z.of_nat 7) with 7.
  rewrite !seedSegment_plain by (try exact H; lia).
  cbn [range Start End_ contiguous Z.eqb Pos.eqb].
  repeat (apply andb_true_intro; split); apply Z.eqb_eq; lia.
Qed.

(** ** The body loop *)

(** C2, evaluated on the code: the worker of the first seeded segment
    [0 .. 1,249,999] of a 10,000,003-byte file gets the answer 200 with the
    whole file; [downloadSegment] accepts it and counts every byte, and
    [Downloaded] ends at 10,000,003, above end - start + 1 = 1,250,000. *)
Theorem downloaded_exceeds_segment_length :
  let s := seedSegment 10000003 0 in
  let s' := fst (downloadSegment (Resp StatusOK (wholeBody 10000003)) s) in
  segmentInvb s = true /\
  Forall (fun r => 0 < readN r <= bufferSize) (wholeBody 10000003) /\
  snd (downloadSegment (Resp StatusOK (wholeBody 10000003)) s) = SegOK /\
  End_ s' - Start s' + 1 = 1250000 /\
  Downloaded s' = 10000003 /\
  segmentInvb s' = false.
Proof.
  cbv zeta. split; [ reflexivity | ]. split.
  - unfold wholeBody. apply Forall_app. split.
    + apply Forall_forall. intros r Hr. apply repeat_spec in Hr. subst r.
      vm_compute. split; [ reflexivity | discriminate ].
    + constructor; [ | constructor ]. vm_compute.
      split; [ reflexivity | discriminate ].
  - repeat split; vm_compute; reflexivity.
Qed.

(** What does hold: a body that delivers no more bytes than the segment
    has left keeps [Downloaded] within the segment. *)
Lemma readLoop_within_range (body : list ReadEvent) (s : Segment) :
  Int64.in_range (End_ s - Start s + 1) ->
  segmentInv s ->
  Forall (fun r => 0 <= readN r) body ->
  fold_right (fun r acc => readN r + acc) 0 body
    <= End_ s - Start s + 1 - Downloaded s ->
  segmentInv (fst (readLoop body s)).
Proof.
  unfold segmentInv. revert s.
  induction body as [| r body IH]; intros s Hr Hinv Hn Hsum; simpl.
  - exact Hinv.
  - inversion Hn as [| ? ? Hr0 Hn']; subst. simpl in Hsum.
    assert (Hrest : 0 <= fold_right (fun r acc => readN r + acc) 0 body).
    { clear - Hn'. induction Hn'; simpl; lia. }
    destruct ((0 <? readN r) && writeFails r); simpl; [ exact Hinv | ].
    assert (Hadd : Int64.add (Downloaded s) (readN r) = Downloaded s + readN r).
    { unfold Int64.in_range, Int64.min_int, Int64.max_int in Hr.
      unwrap. reflexivity. }
    assert (Hstep :
      0 <= Downloaded (if 0 <? readN r then addDownloaded (readN r) s else s)
        <= End_ s - Start s + 1 /\
      Downloaded (if 0 <? readN r then addDownloaded (readN r) s else s)
        = Downloaded s + readN r /\
      End_ (if 0 <? readN r then addDownloaded (readN r) s else s) = End_ s /\
      Start (if 0 <? readN r then addDownloaded (readN r) s else s) = Start s).
    { destruct (0 <? readN r) eqn:E; simpl.
      - rewrite Hadd. lia.
      - apply Z.ltb_ge in E. repeat split; lia. }
    destruct Hstep as (H1 & H2 & H3 & H4).
    destruct (readErr r); simpl; try (rewrite H3, H4; exact H1).
    apply IH; rewrite ?H2, ?H3, ?H4; try assumption; lia.
Qed.

(** ** The probe *)

(** Called with [workersMu] unlocked, [newWorker] returns [true] exactly for
    the statuses 206 and 200, then with one more worker whose ID is the
    former length of the slice; for any other status it returns
    [(false, nil)] and leaves the state as it was. *)
Lemma newWorker_unlocked (code : Z) (st : Shared) :
  workersMu st = false ->
  newWorker (ProbeStatus code) st =
    if accepted code then Returns (true, None, registerWorker st)
    else Returns (false, None, st).
Proof.
  intros Hmu. unfold newWorker, accepted. rewrite Hmu.
  destruct (code =? StatusPartialContent), (code =? StatusOK); reflexivity.
Qed.

(** Called with [workersMu] locked, [newWorker] does not return for the
    statuses 206 and 200. *)
Lemma newWorker_locked (code : Z) (st : Shared) :
  workersMu st = true -> accepted code = true ->
  newWorker (ProbeStatus code) st = Blocks 81.
Proof.
  intros Hmu Hacc. unfold newWorker, accepted in *. rewrite Hmu.
  destruct (code =? StatusPartialContent), (code =? StatusOK);
    try reflexivity; discriminate.
Qed.

(** The Splitter holds [workersMu] (line 204) when it calls [newWorker]
    (line 205): an accepted probe blocks at line 81. *)
Lemma splitterTick_accepted_blocks (totalSize code : Z) (createOK : bool)
    (st : Shared) :
  totalDownloaded st < totalSize -> workersMu st = false ->
  accepted code = true ->
  splitterTick totalSize (ProbeStatus code) createOK st = Blocks 81.
Proof.
  intros Hd Hmu Hacc. unfold splitterTick.
  replace (totalSize <=? totalDownloaded st) with false
    by (symmetry; apply Z.leb_gt; lia).
  rewrite Hmu, newWorker_locked; auto.
Qed.

(** No iteration of the Splitter loop adds a worker or changes the segment
    slice or the job queue. *)
Lemma splitterTick_frame (totalSize : Z) (probe : ProbeResult)
    (createOK : bool) (st st' : Shared) (o : TickOutcome) :
  splitterTick totalSize probe createOK st = Returns (st', o) ->
  workers st' = workers st /\ segments st' = segments st /\
  segmentChan st' = segmentChan st /\ wgCount st' = wgCount st.
Proof.
  unfold splitterTick.
  destruct (totalSize <=? totalDownloaded st).
  - intros H. injection H as <- _. auto.
  - destruct (workersMu st); [ discriminate | ].
    destruct probe as [| | code]; simpl.
    + intros H. injection H as <- _. auto.
    + intros H. injection H as <- _. auto.
    + destruct (negb (code =? StatusPartialContent)
                && negb (code =? StatusOK)); simpl.
      * intros H. injection H as <- _. auto.
      * discriminate.
Qed.

(** C7, evaluated on the code: the first Splitter tick of a 10,000,003-byte
    download.  With the probe answered 206 or 200, [newWorker] blocks at
    line 81 on the mutex its caller locked at line 204: it does not return
    [true] and registers no worker.  With the probe answered 404 it returns
    [(false, nil)] with the worker slice unchanged and [workersMu] still
    locked, and the next tick blocks at line 204. *)
Theorem accepted_probe_registers_no_worker :
  let st := initialShared 10000003 in
  let held := withWorkersMu true st in
  splitterTick 10000003 (ProbeStatus 206) true st = Blocks 81 /\
  splitterTick 10000003 (ProbeStatus 200) true st = Blocks 81 /\
  newWorker (ProbeStatus 206) held = Blocks 81 /\
  newWorker (ProbeStatus 404) held = Returns (false, None, held) /\
  splitterTick 10000003 (ProbeStatus 404) true st =
    Returns (held, TickContinue SplitSkipped false) /\
  splitterTick 10000003 (ProbeStatus 206) true held = Blocks 204.
Proof. repeat split; reflexivity. Qed.

(** ** The sort by a key *)

Section SortByKey.
Context {A : Type}.
Variable key : A -> Z.

(** [a] goes before [b] when its key is greater. *)
Definition greaterKey (a b : A) : bool := key b <? key a.

Lemma bubble_perm (less : A -> A -> bool) (x : A) (p : list A) :
  Permutation (bubble less x p) (x :: p).
Proof.
  induction p as [| y r IH]; simpl.
  - apply Permutation_refl.
  - destruct (less x y).
    + eapply perm_trans; [ apply perm_skip, IH | apply perm_swap ].
    + apply Permutation_refl.
Qed.

Lemma insertionSortRev_perm (less : A -> A -> bool) (l p : list A) :
  Permutation (insertionSortRev less p l) (p ++ l).
Proof.
  revert p. induction l as [| x r IH]; intros p; simpl.
  - now rewrite app_nil_r.
  - eapply perm_trans; [ apply IH | ].
    eapply perm_trans; [ apply Permutation_app_tail, bubble_perm | ].
    simpl. apply Permutation_middle.
Qed.

Lemma sortSlice_perm (less : A -> A -> bool) (l : list A) :
  Permutation (sortSlice less l) l.
Proof.
  unfold sortSlice. eapply perm_trans.
  - apply Permutation_sym, Permutation_rev.
  - apply (insertionSortRev_perm less l []).
Qed.

Definition ascending : list A -> Prop :=
  StronglySorted (fun a b => key a <= key b).

Definition descending : list A -> Prop :=
  StronglySorted (fun a b => key b <= key a).

Lemma bubble_ascending (x : A) (p : list A) :
  ascending p -> ascending (bubble greaterKey x p).
Proof.
  unfold ascending, greaterKey. induction p as [| y r IH]; intros H; simpl.
  - constructor; constructor.
  - apply StronglySorted_inv in H. destruct H as [Hr Hy].
    destruct (key y <? key x) eqn:E.
    + apply Z.ltb_lt in E. constructor; [ apply IH, Hr | ].
      eapply Permutation_Forall;
        [ apply Permutation_sym, bubble_perm | ].
      constructor; [ lia | exact Hy ].
    + apply Z.ltb_ge in E. constructor.
      * constructor; assumption.
      * constructor; [ exact E | ].
        eapply Forall_impl; [ | exact Hy ]. simpl. intros a Ha. lia.
Qed.

Lemma insertionSortRev_ascending (l p : list A) :
  ascending p -> ascending (insertionSortRev greaterKey p l).
Proof.
  revert p. induction l as [| x r IH]; intros p H; simpl.
  - exact H.
  - apply IH, bubble_ascending, H.
Qed.

Lemma rev_ascending (p : list A) : ascending p -> descending (rev p).
Proof.
  unfold ascending, descending. induction p as [| a p IH]; intros H; simpl.
  - constructor.
  - apply StronglySorted_inv in H. destruct H as [Hp Ha].
    specialize (IH Hp). revert IH.
    assert (Hr : Forall (fun b => key a <= key b) (rev p))
      by (eapply Permutation_Forall; [ apply Permutation_rev | exact Ha ]).
    revert Hr. generalize (rev p) as q. clear.
    induction q as [| b q IH]; intros Hr Hq; simpl.
    + constructor; constructor.
    + apply StronglySorted_inv in Hq. destruct Hq as [Hq Hb].
      inversion Hr as [| ? ? Hab Hr']; subst.
      constructor; [ apply IH; assumption | ].
      apply Forall_app. split; [ exact Hb | ]. constructor; [ lia | constructor ].
Qed.

Lemma sortSlice_descending (l : list A) :
  descending (sortSlice greaterKey l).
Proof.
  unfold sortSlice. apply rev_ascending, insertionSortRev_ascending.
  constructor.
Qed.

(** The first element of the sorted slice has the greatest key. *)
Lemma sortSlice_head_greatest (l : list A) (h : A) (rest : list A) :
  sortSlice greaterKey l = h :: rest ->
  Forall (fun a => key a <= key h) l.
Proof.
  intros E. pose proof (sortSlice_descending l) as D. rewrite E in D.
  apply StronglySorted_inv in D. destruct D as [_ D].
  apply (Permutation_Forall (sortSlice_perm greaterKey l)).
  rewrite E. constructor; [ lia | exact D ].
Qed.
End SortByKey.

Lemma sortByRemaining_perm (segs : list Segment) :
  Permutation (sortByRemaining segs) segs.
Proof. apply sortSlice_perm. Qed.

Lemma sortByRemaining_head (segs : list Segment) (h : Segment)
    (rest : list Segment) :
  sortByRemaining segs = h :: rest ->
  Forall (fun s => Remaining s <= Remaining h) segs.
Proof. apply (sortSlice_head_greatest Remaining). Qed.

Lemma sortByID_perm (segs : list Segment) :
  Permutation (sortByID segs) segs.
Proof. apply sortSlice_perm. Qed.

(** ** The split *)

Lemma Remaining_plain (s : Segment) :
  offsetsFit s -> Remaining s = End_ s - Start s + 1 - Downloaded s.
Proof.
  unfold offsetsFit, Int64.max_int, Remaining. intros (H1 & H2 & H3 & H4).
  unwrap. reflexivity.
Qed.

Lemma midpointOf_plain (s : Segment) :
  offsetsFit s -> MinSegmentSize <= Remaining s ->
  midpointOf s = specMidpoint s /\
  Start s + Downloaded s <= specMidpoint s /\ specMidpoint s + 1 <= End_ s.
Proof.
  intros Hfit Hmin. pose proof (Remaining_plain s Hfit) as HR.
  unfold midpointOf, specMidpoint. rewrite HR in *.
  unfold offsetsFit, Int64.max_int in Hfit.
  destruct Hfit as (H1 & H2 & H3 & H4).
  unfold MinSegmentSize in Hmin.
  set (R := End_ s - Start s + 1 - Downloaded s) in *.
  assert (Hq : Z.quot R 2 = R / 2) by (apply Z.quot_div_nonneg; lia).
  assert (Hd : 2 * (R / 2) <= R /\ 0 <= R / 2)
    by (split; [ apply Z.mul_div_le; lia | apply Z.div_pos; lia ]).
  unfold Int64.quot. rewrite Hq.
  unwrap. lia.
Qed.

(** The block changes nothing but the order of the slice: it never returns
    with a segment shrunk or created. *)
Lemma splitLargest_sorts (createOK : bool) (segs queue : list Segment) :
  fst (splitLargest createOK segs queue) = (sortByRemaining segs, queue).
Proof.
  unfold splitLargest, callRemaining.
  destruct (sortByRemaining segs) as [| largest rest]; [ reflexivity | ].
  cbv beta iota. destruct (Remaining largest <? MinSegmentSize); reflexivity.
Qed.



(** C6: when the greatest remaining of the slice, the one of the segment
    picked after the sort, is below MinSegmentSize, the tick splits nothing:
    the slice holds the same segments, each with the fields it had, its
    length is unchanged, and the queue is unchanged. *)
Theorem small_remaining_no_split (createOK : bool)
    (segs queue : list Segment) (largest : Segment) (rest : list Segment) :
  sortByRemaining segs = largest :: rest ->
  Remaining largest < MinSegmentSize ->
  Forall (fun s => Remaining s <= Remaining largest) segs /\
  splitLargest createOK segs queue = (largest :: rest, queue, SplitSkipped) /\
  Permutation (largest :: rest) segs /\
  length (largest :: rest) = length segs.
Proof.
  intros Hs Hlt.
  split; [ apply (sortByRemaining_head segs largest rest Hs) | ].
  split.
  - unfold splitLargest, callRemaining. rewrite Hs. cbv beta iota.
    replace (Remaining largest <? MinSegmentSize) with true
      by (symmetry; apply Z.ltb_lt; exact Hlt).
    reflexivity.
  - rewrite <- Hs. split; [ apply sortByRemaining_perm | ].
    apply Permutation_length, sortByRemaining_perm.
Qed.

(** The seeded slice of a 16 MiB download after 1 KiB of every segment has
    arrived: no segment has 2 MiB left. *)
Lemma small_remaining_no_split_witness :
  let segs := map (addDownloaded 1024) (seedSegments 16777216) in
  Forall (fun s => Remaining s <= Remaining (addDownloaded 1024 (seedSegment 16777216 7))) segs /\
  splitLargest true segs [] =
    (sortByRemaining segs, [], SplitSkipped) /\
  Permutation (sortByRemaining segs) segs /\
  length (sortByRemaining segs) = length segs.
Proof.
  exact (small_remaining_no_split true
           (map (addDownloaded 1024) (seedSegments 16777216)) []
           (addDownloaded 1024 (seedSegment 16777216 7))
           (map (addDownloaded 1024) (firstn 7 (seedSegments 16777216)))
           eq_refl eq_refl).
Defined.

(** ** Monotonicity of segment ends *)

Lemma sameSegment_refl (s : Segment) : sameSegment s s.
Proof. unfold sameSegment. repeat split; lia. Qed.

Lemma sameSegment_trans (a b c : Segment) :
  sameSegment a b -> sameSegment b c -> sameSegment a c.
Proof. unfold sameSegment. intros (H1 & H2 & H3) (H4 & H5 & H6). lia. Qed.

Lemma Forall2_sameSegment_refl (l : list Segment) : Forall2 sameSegment l l.
Proof. induction l; constructor; auto using sameSegment_refl. Qed.

Lemma Forall2_sameSegment_trans (a b c : list Segment) :
  Forall2 sameSegment a b -> Forall2 sameSegment b c ->
  Forall2 sameSegment a c.
Proof.
  intros H. revert c. induction H as [| x y l l' Hxy _ IH]; intros c Hc.
  - inversion Hc. constructor.
  - inversion Hc as [| ? z ? l'' Hyz Hl]; subst.
    constructor; [ eapply sameSegment_trans; eassumption | apply IH, Hl ].
Qed.

Lemma descends_refl (segs : list Segment) : descends segs segs.
Proof.
  exists segs, []. split; [ apply Forall2_sameSegment_refl | ].
  now rewrite app_nil_r.
Qed.

Lemma descends_perm (segs segs' : list Segment) :
  Permutation segs' segs -> descends segs segs'.
Proof.
  intros H. exists segs, []. split; [ apply Forall2_sameSegment_refl | ].
  now rewrite app_nil_r.
Qed.

Lemma descends_trans (a b c : list Segment) :
  descends a b -> descends b c -> descends a c.
Proof.
  intros (k1 & n1 & F1 & P1) (k2 & n2 & F2 & P2).
  destruct (Permutation_Forall2 P1 F2) as (k2' & P3 & F3).
  apply Forall2_app_inv_l in F3.
  destruct F3 as (k & n & Fk & Fn & ->).
  exists k, (n ++ n2). split.
  - eapply Forall2_sameSegment_trans; eassumption.
  - eapply perm_trans; [ exact P2 | ].
    rewrite app_assoc. apply Permutation_app_tail, P3.
Qed.

Lemma shrinkTo_sameSegment (s : Segment) :
  offsetsFit s -> MinSegmentSize <= Remaining s ->
  sameSegment s (shrinkTo (midpointOf s) s).
Proof.
  intros Hfit Hmin.
  destruct (midpointOf_plain s Hfit Hmin) as (Hm & _ & Hhi).
  unfold sameSegment. simpl. rewrite Hm. lia.
Qed.

Lemma splitLargest_descends (createOK : bool) (segs queue : list Segment) :
  descends segs (fst (fst (splitLargest createOK segs queue))).
Proof.
  rewrite splitLargest_sorts. apply descends_perm, sortByRemaining_perm.
Qed.

Lemma segStep_descends (segs segs' : list Segment) :
  Forall offsetsFit segs -> segStep segs segs' -> descends segs segs'.
Proof.
  intros Hfit Hstep.
  destruct Hstep as [l1 s l2 n | createOK segs queue | l1 s l2 Hmin
                     | segs newID midpoint newSegmentEnd | segs].
  - exists (l1 ++ addDownloaded n s :: l2), []. split.
    + apply Forall2_app; [ apply Forall2_sameSegment_refl | ].
      constructor; [ | apply Forall2_sameSegment_refl ].
      unfold sameSegment. simpl. repeat split; lia.
    + now rewrite app_nil_r.
  - apply splitLargest_descends.
  - exists (l1 ++ shrinkTo (midpointOf s) s :: l2), []. split.
    + apply Forall2_app; [ apply Forall2_sameSegment_refl | ].
      constructor; [ | apply Forall2_sameSegment_refl ].
      apply shrinkTo_sameSegment; [ | exact Hmin ].
      eapply Forall_forall; [ exact Hfit | ].
      apply in_or_app. right. left. reflexivity.
    + now rewrite app_nil_r.
  - exists segs, [newSegmentOf newID midpoint newSegmentEnd].
    split; [ apply Forall2_sameSegment_refl | apply Permutation_refl ].
  - apply descends_perm, sortByID_perm.
Qed.

Lemma evolves_descends (segs segs' : list Segment) :
  evolves segs segs' -> descends segs segs'.
Proof.
  induction 1 as [segs | segs1 segs2 segs3 Hfit Hstep _ IH].
  - apply descends_refl.
  - eapply descends_trans; [ apply segStep_descends; eassumption | exact IH ].
Qed.

(** C5: along a run of the statements that write to the segments, every
    segment keeps its ID and its start, and its end never increases; the
    later slice holds the later states of the segments and new segments
    only.  The end changes by a split alone, which sets it to the midpoint,
    not greater than the end it replaces: a chunk leaves every range as it
    was, and the merge sort only reorders the slice. *)
Theorem end_never_grows :
  (forall segs segs', evolves segs segs' -> descends segs segs') /\
  (forall s, offsetsFit s -> MinSegmentSize <= Remaining s ->
     End_ (shrinkTo (midpointOf s) s) <= End_ s) /\
  (forall l1 s l2 n,
     map range (l1 ++ addDownloaded n s :: l2) = map range (l1 ++ s :: l2) /\
     map ID (l1 ++ addDownloaded n s :: l2) = map ID (l1 ++ s :: l2)) /\
  (forall segs, Permutation (mergeOrder segs) segs).
Proof.
  split; [ exact evolves_descends | ]. split; [ | split ].
  - intros s Hfit Hmin. apply shrinkTo_sameSegment; assumption.
  - intros l1 s l2 n. rewrite !map_app. simpl. auto.
  - intros segs. apply sortByID_perm.
Qed.

(** A 32 MiB download: a chunk of 32 KiB arrives for segment 0, the split
    block sorts the slice and picks the last segment, the end of that
    segment is set to its midpoint, segment 8 is appended, and the slice is
    sorted for the merge. *)
Ltac offsets_fit :=
  match goal with
  | |- Forall offsetsFit ?l =>
    let l' := eval vm_compute in l in
    change (Forall offsetsFit l');
    repeat (apply Forall_cons; [ unfold offsetsFit; repeat split; vm_compute;
                                 first [ discriminate | reflexivity ] | ]);
    apply Forall_nil
  end.

Lemma end_never_grows_witness :
  let segs0 := seedSegments 33554432 in
  let segs1 := addDownloaded 32768 (seedSegment 33554432 0) :: skipn 1 segs0 in
  let segs2 := fst (fst (splitLargest true segs1 [])) in
  let largest := seedSegment 33554432 7 in
  let segs3 := shrinkTo (midpointOf largest) largest :: tl segs2 in
  let segs4 :=
    segs3 ++ [newSegmentOf 8 (midpointOf largest) (End_ largest)] in
  evolves segs0 (mergeOrder segs4) /\ descends segs0 (mergeOrder segs4).
Proof.
  cbv zeta.
  set (segs1 := addDownloaded 32768 (seedSegment 33554432 0)
                  :: skipn 1 (seedSegments 33554432)).
  set (largest := seedSegment 33554432 7).
  set (rest := tl (fst (fst (splitLargest true segs1 [])))).
  set (new := newSegmentOf 8 (midpointOf largest) (End_ largest)).
  assert (E : evolves (seedSegments 33554432)
                (mergeOrder ((shrinkTo (midpointOf largest) largest :: rest)
                               ++ [new]))).
  { refine (evolves_step _ _ _ _
              (step_chunk [] (seedSegment 33554432 0)
                 (skipn 1 (seedSegments 33554432)) 32768) _);
      [ offsets_fit | ].
    refine (evolves_step _ _ _ _ (step_split true segs1 []) _);
      [ offsets_fit | ].
    refine (evolves_step _ _ _ _ (step_end [] largest rest _) _);
      [ offsets_fit | vm_compute; discriminate | ].
    refine (evolves_step _ _ _ _
              (step_append _ 8 (midpointOf largest) (End_ largest)) _);
      [ offsets_fit | ].
    refine (evolves_step _ _ _ _ (step_merge _) (evolves_refl _)).
    offsets_fit. }
  split; [ exact E | exact (proj1 end_never_grows _ _ E) ].
Defined.

(** ** The progress window *)

Lemma pushSample_length (x : Z) (w : list Z) :
  (length w <= windowCap)%nat -> (length (pushSample x w) <= windowCap)%nat.
Proof.
  unfold pushSample, windowCap. intros H.
  destruct (30 <? length (w ++ [x]))%nat eqn:E.
  - destruct w as [| y w']; simpl in *; [ lia | ].
    rewrite length_app. simpl. lia.
  - apply Nat.ltb_ge in E. exact E.
Qed.

Lemma printProgress_length (d : Downloader) (written total since : Z) :
  (length (bytesDownloadedPerSecond d) <= windowCap)%nat ->
  (length (bytesDownloadedPerSecond
             (fst (printProgress d written total since))) <= windowCap)%nat.
Proof.
  intros H. unfold printProgress.
  destruct (F64.eqb (Seconds since) F64.zero); simpl.
  - exact H.
  - apply pushSample_length, H.
Qed.

Lemma progressRun_length (calls : list (Z * Z * Z)) (d : Downloader) :
  (length (bytesDownloadedPerSecond d) <= windowCap)%nat ->
  (length (bytesDownloadedPerSecond (progressRun calls d)) <= windowCap)%nat.
Proof.
  revert d. induction calls as [| c calls IH]; intros d H; simpl.
  - exact H.
  - apply IH, printProgress_length, H.
Qed.

(** C10: when the elapsed time is zero seconds [printProgress] returns at
    once, with the window as it was and nothing written, so the division by
    [elapsed] is not reached; a call that goes on divides by a non-zero
    [elapsed], appends one sample and leaves at most 30 in a window that
    held at most 30; and a window that starts empty holds at most 30
    samples after any number of calls. *)
Theorem progress_window_bounded :
  (forall d written total since,
     F64.eqb (Seconds since) F64.zero = true ->
     printProgress d written total since = (d, None)) /\
  (forall d written total, printProgress d written total 0 = (d, None)) /\
  (forall d written total since,
     F64.eqb (Seconds since) F64.zero = false ->
     (length (bytesDownloadedPerSecond d) <= 30)%nat ->
     snd (printProgress d written total since) <> None /\
     (length (bytesDownloadedPerSecond
                (fst (printProgress d written total since))) <= 30)%nat) /\
  (forall calls,
     (length (bytesDownloadedPerSecond
                (progressRun calls (mkDownloader []))) <= 30)%nat).
Proof.
  split; [ | split; [ | split ] ].
  - intros d written total since E. unfold printProgress. now rewrite E.
  - intros d written total. reflexivity.
  - intros d written total since E H. split.
    + unfold printProgress. rewrite E. simpl. discriminate.
    + apply printProgress_length, H.
  - intros calls. apply progressRun_length. simpl. unfold windowCap. lia.
Qed.

(** A full window of 30 samples and a call 1.5 s after the start. *)
Lemma progress_window_bounded_witness :
  printProgress (mkDownloader (repeat 7%Z 30%nat)) 5000000 10000003 0 =
    (mkDownloader (repeat 7%Z 30%nat), None) /\
  snd (printProgress (mkDownloader (repeat 7%Z 30%nat)) 5000000 10000003
         1500000000) <> None /\
  (length (bytesDownloadedPerSecond
             (fst (printProgress (mkDownloader (repeat 7%Z 30%nat)) 5000000
                     10000003 1500000000))) <= 30)%nat.
Proof.
  split.
  - apply (proj1 progress_window_bounded). reflexivity.
  - apply (proj1 (proj2 (proj2 progress_window_bounded))).
    + reflexivity.
    + simpl. lia.
Defined.

(** ** Lock order *)

Module LockFacts.
Import LockModel.

Lemma lock_eqb_eq (a b : Lock) : lock_eqb a b = true <-> a = b.
Proof.
  destruct a, b; simpl; split; intros H; try reflexivity; try discriminate.
  - apply Z.eqb_eq in H. now subst.
  - injection H as ->. apply Z.eqb_refl.
Qed.

Lemma lock_eqb_refl (a : Lock) : lock_eqb a a = true.
Proof. now apply lock_eqb_eq. Qed.

Lemma lock_eqb_neq (a b : Lock) : a <> b -> lock_eqb a b = false.
Proof.
  intros H. destruct (lock_eqb a b) eqn:E; [ | reflexivity ].
  apply lock_eqb_eq in E. contradiction.
Qed.

Lemma thread_eqb_eq (a b : Thread) : thread_eqb a b = true <-> a = b.
Proof.
  destruct a, b; simpl; split; intros H; try reflexivity; try discriminate.
  - apply Z.eqb_eq in H. now subst.
  - injection H as ->. apply Z.eqb_refl.
Qed.

Lemma thread_eqb_refl (a : Thread) : thread_eqb a a = true.
Proof. now apply thread_eqb_eq. Qed.

Lemma thread_eqb_neq (a b : Thread) : a <> b -> thread_eqb a b = false.
Proof.
  intros H. destruct (thread_eqb a b) eqn:E; [ | reflexivity ].
  apply thread_eqb_eq in E. contradiction.
Qed.

(** A continuation is tidy when it never touches [PoolMu] and releases
    every segment mutex right after taking it. *)
Fixpoint tidy (k : list Op) : Prop :=
  match k with
  | [] => True
  | Acquire (SegMu i) :: k' =>
    match k' with
    | Release (SegMu j) :: _ => i = j /\ tidy k'
    | _ => False
    end
  | Acquire PoolMu :: _ | Release PoolMu :: _ => False
  | _ :: k' => tidy k'
  end.

Lemma tidy_tail (o : Op) (k : list Op) : tidy (o :: k) -> tidy k.
Proof.
  destruct o as [[| | i |] | [| | i |]]; simpl; try tauto.
  destruct k as [| [l | l] k']; try tauto. destruct l; tauto.
Qed.

Lemma tidy_head (o : Op) (k : list Op) :
  tidy (o :: k) -> o <> Acquire PoolMu /\ o <> Release PoolMu.
Proof.
  destruct o as [[| | i |] | [| | i |]]; simpl; intros H;
    split; try discriminate; contradiction.
Qed.

Lemma tidy_acquire_seg (i : Z) (k : list Op) :
  tidy (Acquire (SegMu i) :: k) -> exists k', k = Release (SegMu i) :: k'.
Proof.
  simpl. destruct k as [| [l | l] k']; try tauto.
  destruct l; try tauto. intros [-> _]. now exists k'.
Qed.

Lemma tidy_segmentOps_app (i : Z) (k : list Op) :
  tidy k -> tidy (segmentOps i ++ k).
Proof. simpl. auto. Qed.

Lemma tidy_flat_map (ids : list Z) (k : list Op) :
  tidy k -> tidy (flat_map segmentOps ids ++ k).
Proof.
  intros H. induction ids as [| i ids IH]; [ exact H | ].
  change (flat_map segmentOps (i :: ids) ++ k)
    with (segmentOps i ++ (flat_map segmentOps ids ++ k)).
  apply tidy_segmentOps_app, IH.
Qed.

Lemma tidy_printProgressOps (z : bool) (k : list Op) :
  tidy k -> tidy (printProgressOps z ++ k).
Proof. destruct z; simpl; auto. Qed.

Lemma tidy_path (t : Thread) (p : list Op) :
  t <> Splitter -> path t p -> tidy p.
Proof.
  intros Ht Hp. destruct Hp as [ids z | a cmps largest small | w seg | z].
  - unfold progressPath. simpl. apply tidy_flat_map. simpl.
    rewrite <- (app_nil_r (printProgressOps z)).
    apply tidy_printProgressOps. exact I.
  - contradiction.
  - simpl. auto.
  - unfold mainPath. apply tidy_printProgressOps. simpl. exact I.
Qed.

(** What follows line 204 in an iteration of the Splitter: nothing, or
    the [Lock] of line 81. *)
Lemma splitterPath_shape (a : bool) (cmps : list (Z * Z)) (largest : Z)
    (small : bool) :
  exists tail, splitterPath a cmps largest small = Acquire PoolMu :: tail /\
               (tail = [] \/ exists k, tail = Acquire PoolMu :: k).
Proof.
  unfold splitterPath. destruct a; simpl.
  - eexists. split; [ reflexivity | right; eexists; reflexivity ].
  - exists []. auto.
Qed.

(** The invariant of the reachable states. *)
Record inv (st : State) : Prop := mkInv {
  inv_tidy : forall t, t <> Splitter -> tidy (cont st t);
  inv_seg : forall t i, t <> Splitter -> owner st (SegMu i) = Some t ->
            exists k, cont st t = Release (SegMu i) :: k;
  inv_pool : forall t, owner st PoolMu = Some t -> t = Splitter;
  inv_splitter_store : owner st StoreMu <> Some Splitter;
  inv_splitter_seg : forall i, owner st (SegMu i) <> Some Splitter;
  inv_splitter_cont :
    cont st Splitter = [] \/
    (exists a c l s, cont st Splitter = splitterPath a c l s) \/
    (owner st PoolMu = Some Splitter /\
     (cont st Splitter = [] \/
      exists k, cont st Splitter = Acquire PoolMu :: k))
}.

Lemma inv_init : inv init.
Proof.
  constructor; simpl; try discriminate; auto.
Qed.

Lemma thread_cases (t : Thread) : t = Splitter \/ t <> Splitter.
Proof. destruct t; auto; right; discriminate. Qed.

Lemma cont_setCont_same (st : State) (t : Thread) (k : list Op) :
  cont (setCont t k st) t = k.
Proof. simpl. now rewrite thread_eqb_refl. Qed.

Lemma cont_setCont_other (st : State) (t t' : Thread) (k : list Op) :
  t' <> t -> cont (setCont t k st) t' = cont st t'.
Proof. intros H. simpl. now rewrite thread_eqb_neq. Qed.

(** The Splitter is at the top of its loop, about to take [PoolMu], or
    holds [PoolMu] and is at the end of the iteration or at line 81. *)
Lemma splitter_next (st : State) (o : Op) (k : list Op) :
  inv st -> cont st Splitter = o :: k ->
  o = Acquire PoolMu /\
  (owner st PoolMu = None ->
   k = [] \/ exists k', k = Acquire PoolMu :: k').
Proof.
  intros I Hc. destruct (inv_splitter_cont st I) as [H | [H | [Ho H]]].
  - rewrite H in Hc. discriminate.
  - destruct H as (a & c & l & s & H).
    destruct (splitterPath_shape a c l s) as (tail & E & Ht).
    rewrite H, E in Hc. injection Hc as <- <-. auto.
  - destruct H as [H | [k' H]]; rewrite H in Hc; [ discriminate | ].
    injection Hc as <- <-. split; [ reflexivity | ].
    intros Hn. rewrite Hn in Ho. discriminate.
Qed.

Lemma inv_start (st : State) (t : Thread) (p : list Op) :
  inv st -> cont st t = [] -> path t p -> inv (setCont t p st).
Proof.
  intros I Hc Hp. destruct (thread_cases t) as [-> | Ht].
  - constructor.
    + intros t' Ht'. rewrite cont_setCont_other by exact Ht'.
      apply (inv_tidy st I t' Ht').
    + intros t' i Ht' Ho. rewrite cont_setCont_other by exact Ht'.
      apply (inv_seg st I t' i Ht' Ho).
    + apply (inv_pool st I).
    + apply (inv_splitter_store st I).
    + apply (inv_splitter_seg st I).
    + rewrite cont_setCont_same. right. left.
      inversion Hp; subst. eauto.
  - constructor.
    + intros t' Ht'. destruct (thread_eqb t' t) eqn:E.
      * apply thread_eqb_eq in E. subst t'. rewrite cont_setCont_same.
        apply (tidy_path t p Ht Hp).
      * simpl. rewrite E. apply (inv_tidy st I t' Ht').
    + intros t' i Ht' Ho. destruct (thread_eqb t' t) eqn:E.
      * apply thread_eqb_eq in E. subst t'.
        destruct (inv_seg st I t i Ht Ho) as [k Hk].
        rewrite Hk in Hc. discriminate.
      * simpl. rewrite E. apply (inv_seg st I t' i Ht' Ho).
    + apply (inv_pool st I).
    + apply (inv_splitter_store st I).
    + apply (inv_splitter_seg st I).
    + rewrite cont_setCont_other by (intros E; apply Ht; now symmetry).
      apply (inv_splitter_cont st I).
Qed.

Lemma owner_set (st : State) (l l' : Lock) (o : option Thread) (t : Thread)
    (k : list Op) :
  owner (setOwner l o (setCont t k st)) l' =
    if lock_eqb l' l then o else owner st l'.
Proof. reflexivity. Qed.

Lemma cont_set (st : State) (l : Lock) (o : option Thread) (t t' : Thread)
    (k : list Op) :
  cont (setOwner l o (setCont t k st)) t' =
    if thread_eqb t' t then k else cont st t'.
Proof. reflexivity. Qed.

Lemma inv_acquire (st : State) (t : Thread) (l : Lock) (k : list Op) :
  inv st -> cont st t = Acquire l :: k -> owner st l = None ->
  inv (setOwner l (Some t) (setCont t k st)).
Proof.
  intros I Hc Hfree. destruct (thread_cases t) as [-> | Ht].
  - destruct (splitter_next st _ _ I Hc) as [E Hk]. injection E as ->.
    specialize (Hk Hfree).
    constructor.
    + intros t' Ht'. rewrite ?owner_set, ?cont_set. rewrite thread_eqb_neq by exact Ht'.
      apply (inv_tidy st I t' Ht').
    + intros t' i Ht' Ho. rewrite ?owner_set, ?cont_set in *. rewrite thread_eqb_neq by exact Ht'.
      apply (inv_seg st I t' i Ht' Ho).
    + intros t' Ho. rewrite owner_set, lock_eqb_refl in Ho. now injection Ho.
    + rewrite ?owner_set, ?cont_set. apply (inv_splitter_store st I).
    + intros i. rewrite ?owner_set, ?cont_set. apply (inv_splitter_seg st I).
    + right. right. split; [ now rewrite owner_set, lock_eqb_refl | ].
      rewrite ?owner_set, ?cont_set. exact Hk.
  - pose proof (inv_tidy st I t Ht) as Htidy. rewrite Hc in Htidy.
    destruct (tidy_head _ _ Htidy) as [Hnp _].
    assert (Hl : l <> PoolMu) by (intros ->; now apply Hnp).
    constructor.
    + intros t' Ht'. rewrite ?owner_set, ?cont_set. destruct (thread_eqb t' t) eqn:E.
      * apply (tidy_tail _ _ Htidy).
      * apply (inv_tidy st I t' Ht').
    + intros t' i Ht' Ho. rewrite owner_set in Ho.
      destruct (lock_eqb (SegMu i) l) eqn:El.
      * apply lock_eqb_eq in El. subst l. injection Ho as <-.
        rewrite ?owner_set, ?cont_set. rewrite thread_eqb_refl. apply (tidy_acquire_seg i k Htidy).
      * rewrite ?owner_set, ?cont_set. destruct (thread_eqb t' t) eqn:E.
        -- apply thread_eqb_eq in E. subst t'.
           destruct (inv_seg st I t i Ht Ho) as [k' Hk'].
           rewrite Hk' in Hc. discriminate.
        -- apply (inv_seg st I t' i Ht' Ho).
    + intros t' Ho. rewrite owner_set, lock_eqb_neq in Ho by (intros E; apply Hl; now symmetry).
      apply (inv_pool st I t' Ho).
    + rewrite ?owner_set, ?cont_set. destruct (lock_eqb StoreMu l).
      * intros E. injection E as ->. now apply Ht.
      * apply (inv_splitter_store st I).
    + intros i. rewrite ?owner_set, ?cont_set. destruct (lock_eqb (SegMu i) l).
      * intros E. injection E as ->. now apply Ht.
      * apply (inv_splitter_seg st I).
    + rewrite owner_set, lock_eqb_neq by (intros E; apply Hl; now symmetry).
      rewrite ?owner_set, ?cont_set. rewrite thread_eqb_neq by (intros E; apply Ht; now symmetry).
      apply (inv_splitter_cont st I).
Qed.

Lemma inv_release (st : State) (t : Thread) (l : Lock) (k : list Op) :
  inv st -> cont st t = Release l :: k ->
  inv (setOwner l None (setCont t k st)).
Proof.
  intros I Hc. destruct (thread_cases t) as [-> | Ht].
  - destruct (splitter_next st _ _ I Hc) as [E _]. discriminate.
  - pose proof (inv_tidy st I t Ht) as Htidy. rewrite Hc in Htidy.
    destruct (tidy_head _ _ Htidy) as [_ Hnp].
    assert (Hl : l <> PoolMu) by (intros ->; now apply Hnp).
    constructor.
    + intros t' Ht'. rewrite ?owner_set, ?cont_set. destruct (thread_eqb t' t) eqn:E.
      * apply (tidy_tail _ _ Htidy).
      * apply (inv_tidy st I t' Ht').
    + intros t' i Ht' Ho. rewrite owner_set in Ho.
      destruct (lock_eqb (SegMu i) l) eqn:El; [ discriminate | ].
      rewrite ?owner_set, ?cont_set. destruct (thread_eqb t' t) eqn:E.
      * apply thread_eqb_eq in E. subst t'.
        destruct (inv_seg st I t i Ht Ho) as [k' Hk'].
        rewrite Hk' in Hc. injection Hc as <- _.
        rewrite lock_eqb_refl in El. discriminate.
      * apply (inv_seg st I t' i Ht' Ho).
    + intros t' Ho. rewrite owner_set, lock_eqb_neq in Ho by (intros E; apply Hl; now symmetry).
      apply (inv_pool st I t' Ho).
    + rewrite ?owner_set, ?cont_set. destruct (lock_eqb StoreMu l); [ discriminate | ].
      apply (inv_splitter_store st I).
    + intros i. rewrite ?owner_set, ?cont_set. destruct (lock_eqb (SegMu i) l); [ discriminate | ].
      apply (inv_splitter_seg st I).
    + rewrite owner_set, lock_eqb_neq by (intros E; apply Hl; now symmetry).
      rewrite ?owner_set, ?cont_set. rewrite thread_eqb_neq by (intros E; apply Ht; now symmetry).
      apply (inv_splitter_cont st I).
Qed.

Lemma inv_step (st st' : State) (t : Thread) (o : option Op) :
  inv st -> step st t o st' -> inv st'.
Proof.
  intros I H. destruct H.
  - now apply inv_start.
  - now apply inv_acquire.
  - now apply inv_release.
Qed.

Lemma inv_reachable (st : State) : reachable st -> inv st.
Proof.
  induction 1 as [| st t o st' _ IH Hs].
  - apply inv_init.
  - apply (inv_step st st' t o IH Hs).
Qed.

(** The Splitter never holds [segmentsMu] or a segment's mutex, and never
    gets past line 81: it takes [workersMu] at line 204 and then stops at
    the end of the iteration or at the second [Lock]. *)
Lemma splitter_never_splits (st : State) :
  reachable st ->
  ~ holds st Splitter StoreMu /\
  (forall i, ~ holds st Splitter (SegMu i)) /\
  (forall st', ~ step st Splitter (Some (Release PoolMu)) st').
Proof.
  intros R. pose proof (inv_reachable st R) as I. unfold holds.
  split; [ apply (inv_splitter_store st I) | ].
  split; [ apply (inv_splitter_seg st I) | ].
  intros st' H. inversion H as [| | ? ? ? k Hc Ho]; subst.
  destruct (splitter_next st _ _ I Hc) as [E _]. discriminate.
Qed.

(** Lines 223-224 in the model of the mutexes: the pass of the split block
    over a segment that is not small takes the mutex of the segment at line
    223 and again at line 35, with no release between. *)
Lemma splitOps_locks_twice (cmps : list (Z * Z)) (largest : Z) :
  splitOps cmps largest false =
    ([Acquire StoreMu] ++ sortOps cmps ++ segmentOps largest)
      ++ [Acquire (SegMu largest); Acquire (SegMu largest);
          Release (SegMu largest); Release (SegMu largest);
          Release StoreMu].
Proof. unfold splitOps. rewrite <- !app_assoc. reflexivity. Qed.

(** A goroutine about to take a mutex it holds has no step. *)
Lemma held_lock_blocks (st st' : State) (t : Thread) (l : Lock)
    (k : list Op) (o : option Op) :
  cont st t = Acquire l :: k -> holds st t l -> ~ step st t o st'.
Proof.
  unfold holds. intros Hc Hh S.
  inversion S as [? ? p Hn | ? ? l' k' Hc' Hfree | ? ? l' k' Hc' Ho]; subst;
    rewrite Hc in *; try discriminate.
  injection Hc' as <- _. rewrite Hh in Hfree. discriminate.
Qed.

End LockFacts.

(** C9: in every reachable state no goroutine holds the pool lock together
    with a segment lock, and a goroutine that takes the store lock holds
    neither the pool lock nor a segment lock: the store lock is taken
    before a segment lock and before the pool lock, never after them. *)
Theorem lock_order (st : LockModel.State) :
  LockModel.reachable st ->
  (forall t i,
     ~ (LockModel.holds st t LockModel.PoolMu /\
        LockModel.holds st t (LockModel.SegMu i))) /\
  (forall t st',
     LockModel.step st t (Some (LockModel.Acquire LockModel.StoreMu)) st' ->
     ~ LockModel.holds st t LockModel.PoolMu /\
     forall i, ~ LockModel.holds st t (LockModel.SegMu i)).
Proof.
  intros R. pose proof (LockFacts.inv_reachable st R) as I.
  unfold LockModel.holds. split.
  - intros t i [Hp Hs].
    apply (LockFacts.inv_pool st I) in Hp. subst t.
    now apply (LockFacts.inv_splitter_seg st I i).
  - intros t st' H.
    inversion H as [| ? ? ? k Hc Ho |]; subst.
    destruct (LockFacts.thread_cases t) as [-> | Ht].
    + destruct (LockFacts.splitter_next st _ _ I Hc) as [E _]. discriminate.
    + split.
      * intros Hp. now apply (LockFacts.inv_pool st I) in Hp.
      * intros i Hs.
        destruct (LockFacts.inv_seg st I t i Ht Hs) as [k' Hk'].
        rewrite Hk' in Hc. discriminate.
Qed.

(** The progress goroutine inside its loop holds the store lock and a
    segment lock, taken in this order. *)
Lemma lock_order_witness :
  LockModel.holds progressInLoop LockModel.Progress LockModel.StoreMu /\
  LockModel.holds progressInLoop LockModel.Progress (LockModel.SegMu 0) /\
  (forall t i,
     ~ (LockModel.holds progressInLoop t LockModel.PoolMu /\
        LockModel.holds progressInLoop t (LockModel.SegMu i))) /\
  (forall t st',
     LockModel.step progressInLoop t
       (Some (LockModel.Acquire LockModel.StoreMu)) st' ->
     ~ LockModel.holds progressInLoop t LockModel.PoolMu /\
     forall i, ~ LockModel.holds progressInLoop t (LockModel.SegMu i)).
Proof.
  split; [ reflexivity | ]. split; [ reflexivity | ].
  apply (lock_order progressInLoop).
  apply (LockModel.reach_step progressHoldsStore LockModel.Progress
           (Some (LockModel.Acquire (LockModel.SegMu 0)))).
  - apply (LockModel.reach_step progressStarted LockModel.Progress
             (Some (LockModel.Acquire LockModel.StoreMu))).
    + apply (LockModel.reach_step LockModel.init LockModel.Progress None);
        [ apply LockModel.reach_init | ].
      apply (LockModel.step_start LockModel.init LockModel.Progress
               (LockModel.progressPath [0] false));
        [ reflexivity | constructor ].
    + apply (LockModel.step_acquire progressStarted LockModel.Progress
               LockModel.StoreMu (tl (LockModel.progressPath [0] false)));
        reflexivity.
  - apply (LockModel.step_acquire progressHoldsStore LockModel.Progress
             (LockModel.SegMu 0)
             (tl (tl (LockModel.progressPath [0] false)))); reflexivity.
Defined.

(** ** float64 arithmetic *)

Lemma shr_1_m (mrs : shr_record) :
  0 <= shr_m mrs -> shr_m (shr_1 mrs) = shr_m mrs / 2.
Proof.
  destruct mrs as [m r s]. simpl. intros H.
  destruct m as [| p | p]; [ reflexivity | | lia ].
  destruct p as [p | p |]; simpl.
  - rewrite Pos2Z.inj_xI. apply Z.div_unique with (r := 1); lia.
  - rewrite Pos2Z.inj_xO. apply Z.div_unique with (r := 0); lia.
  - reflexivity.
Qed.

Lemma iter_shr_1_m (n : positive) (mrs : shr_record) :
  0 <= shr_m mrs ->
  shr_m (iter_pos shr_1 n mrs) = shr_m mrs / 2 ^ Z.pos n.
Proof.
  revert mrs. induction n as [n IH | n IH |]; intros mrs H; simpl iter_pos.
  - assert (H1 : 0 <= shr_m (shr_1 mrs))
      by (rewrite shr_1_m by exact H; apply Z.div_pos; lia).
    assert (H2 : 0 <= shr_m (iter_pos shr_1 n (shr_1 mrs)))
      by (rewrite IH by exact H1; apply Z.div_pos; lia).
    rewrite IH by exact H2. rewrite IH by exact H1. rewrite shr_1_m by exact H.
    assert (E : 2 ^ Z.pos n~1 = 2 * (2 ^ Z.pos n * 2 ^ Z.pos n)).
    { rewrite Pos2Z.inj_xI, Z.pow_add_r, Z.pow_twice_r by lia. lia. }
    assert (P : 0 < 2 ^ Z.pos n) by (apply Z.pow_pos_nonneg; lia).
    rewrite E, !Z.div_div by lia. f_equal; lia.
  - assert (H2 : 0 <= shr_m (iter_pos shr_1 n mrs))
      by (rewrite IH by exact H; apply Z.div_pos; lia).
    rewrite IH by exact H2. rewrite IH by exact H.
    assert (E : 2 ^ Z.pos n~0 = 2 ^ Z.pos n * 2 ^ Z.pos n).
    { change (Z.pos n~0) with (2 * Z.pos n). now rewrite Z.pow_twice_r. }
    assert (P : 0 < 2 ^ Z.pos n) by (apply Z.pow_pos_nonneg; lia).
    rewrite E, !Z.div_div by lia. reflexivity.
  - rewrite shr_1_m by exact H. reflexivity.
Qed.

Lemma digits2_pos_bounds (m : positive) :
  2 ^ (Z.pos (digits2_pos m) - 1) <= Z.pos m < 2 ^ Z.pos (digits2_pos m).
Proof.
  induction m as [m IH | m IH |]; simpl digits2_pos.
  - set (d := Z.pos (digits2_pos m)) in *.
    replace (Z.pos (Pos.succ (digits2_pos m))) with (Z.succ d)
      by (unfold d; now rewrite Pos2Z.inj_succ).
    replace (Z.succ d - 1) with (Z.succ (d - 1)) by lia.
    rewrite !Z.pow_succ_r by lia.
    change (Z.pos m~1) with (2 * Z.pos m + 1). lia.
  - set (d := Z.pos (digits2_pos m)) in *.
    replace (Z.pos (Pos.succ (digits2_pos m))) with (Z.succ d)
      by (unfold d; now rewrite Pos2Z.inj_succ).
    replace (Z.succ d - 1) with (Z.succ (d - 1)) by lia.
    rewrite !Z.pow_succ_r by lia.
    change (Z.pos m~0) with (2 * Z.pos m). lia.
  - simpl. lia.
Qed.

Lemma Zdigits2_le (x k : Z) : 0 < x < 2 ^ k -> 0 <= k -> 0 < Zdigits2 x <= k.
Proof.
  intros [H0 H1] Hk. destruct x as [| p | p]; try lia. simpl.
  pose proof (digits2_pos_bounds p) as [Hl _].
  split; [ lia | ].
  assert (H : 2 ^ (Z.pos (digits2_pos p) - 1) < 2 ^ k) by lia.
  apply Z.pow_lt_mono_r_iff in H; lia.
Qed.

Lemma shr_m_of_loc (m : Z) (l : location) : shr_m (shr_record_of_loc m l) = m.
Proof. destruct l as [| []]; reflexivity. Qed.

Lemma fexp64 (e : Z) : fexp 53 1024 e = Z.max (e - 53) (-1074).
Proof. reflexivity. Qed.

Lemma shr_fexp_nonneg (m e : Z) (l : location) :
  0 <= m -> 0 <= shr_m (fst (shr_fexp 53 1024 m e l)).
Proof.
  intros H. unfold shr_fexp, shr.
  destruct (fexp 53 1024 (Zdigits2 m + e) - e) as [| p | p]; simpl;
    rewrite ?shr_m_of_loc; try exact H.
  rewrite iter_shr_1_m by (now rewrite shr_m_of_loc).
  rewrite shr_m_of_loc. apply Z.div_pos; [ exact H | ].
  apply Z.pow_pos_nonneg; lia.
Qed.

Lemma Zdigits2_bounds (m : Z) :
  0 < m -> 0 < Zdigits2 m /\ 2 ^ (Zdigits2 m - 1) <= m < 2 ^ Zdigits2 m.
Proof.
  intros H. destruct m as [| p | p]; try lia. simpl.
  split; [ lia | apply digits2_pos_bounds ].
Qed.

Lemma shr_fexp_pos (m e : Z) (l : location) :
  0 < m -> -1074 <= e ->
  0 < shr_m (fst (shr_fexp 53 1024 m e l)) <= m /\
  e <= snd (shr_fexp 53 1024 m e l) <= e + Zdigits2 m.
Proof.
  intros Hm He. destruct (Zdigits2_bounds m Hm) as (Hd & Hlo & Hhi).
  unfold shr_fexp, shr. rewrite fexp64.
  destruct (Z.max (Zdigits2 m + e - 53) (-1074) - e) as [| p | p] eqn:En;
    simpl; rewrite ?shr_m_of_loc; try lia.
  rewrite iter_shr_1_m by (rewrite shr_m_of_loc; lia).
  rewrite shr_m_of_loc.
  assert (Ep : Z.pos p = Zdigits2 m - 53) by lia.
  assert (P : 0 < 2 ^ Z.pos p) by (apply Z.pow_pos_nonneg; lia).
  assert (Hle : 2 ^ Z.pos p <= m).
  { eapply Z.le_trans; [ | exact Hlo ].
    apply Z.pow_le_mono_r; lia. }
  split; [ split | lia ].
  - apply Z.div_str_pos. lia.
  - apply Z.div_le_upper_bound; [ lia | nia ].
Qed.

Lemma round_nearest_even_bounds (m : Z) (l : location) :
  m <= round_nearest_even m l <= m + 1.
Proof.
  destruct l as [| []]; simpl; try lia. destruct (Z.even m); lia.
Qed.

Lemma binary_round_aux_not_nan (s : bool) (mx ex : Z) (lx : location) :
  0 <= mx -> binary_round_aux 53 1024 s mx ex lx <> S754_nan.
Proof.
  intros H. unfold binary_round_aux.
  pose proof (shr_fexp_nonneg mx ex lx H) as H1.
  destruct (shr_fexp 53 1024 mx ex lx) as [mrs' e']. simpl in H1.
  pose proof (round_nearest_even_bounds (shr_m mrs') (loc_of_shr_record mrs'))
    as H2.
  pose proof (shr_fexp_nonneg
                (round_nearest_even (shr_m mrs') (loc_of_shr_record mrs'))
                e' loc_Exact ltac:(lia)) as H3.
  destruct (shr_fexp 53 1024 _ e' loc_Exact) as [mrs'' e'']. simpl in H3.
  destruct (shr_m mrs'') as [| p | p]; try discriminate; try lia.
  destruct (e'' <=? 1024 - 53); discriminate.
Qed.

Lemma binary_round_aux_finite (s : bool) (mx ex : Z) (lx : location) :
  0 < mx -> -1074 <= ex -> ex + 2 * Zdigits2 mx + 1 <= 971 ->
  exists m e, binary_round_aux 53 1024 s mx ex lx = S754_finite s m e.
Proof.
  intros Hm He Hb. unfold binary_round_aux.
  destruct (Zdigits2_bounds mx Hm) as (Hd & Hlo & Hhi).
  pose proof (shr_fexp_pos mx ex lx Hm He) as [H1 H1e].
  destruct (shr_fexp 53 1024 mx ex lx) as [mrs' e']. simpl in H1, H1e.
  pose proof (round_nearest_even_bounds (shr_m mrs') (loc_of_shr_record mrs'))
    as H2.
  set (m2 := round_nearest_even (shr_m mrs') (loc_of_shr_record mrs')) in *.
  assert (Hm2 : 0 < m2) by lia.
  assert (Hd2 : Zdigits2 m2 <= Zdigits2 mx + 1).
  { apply Zdigits2_le; [ | lia ]. split; [ lia | ].
    rewrite Z.pow_add_r by lia. change (2 ^ 1) with 2. lia. }
  pose proof (shr_fexp_pos m2 e' loc_Exact Hm2 ltac:(lia)) as [H3 H3e].
  destruct (shr_fexp 53 1024 m2 e' loc_Exact) as [mrs'' e''].
  simpl in H3, H3e.
  destruct (shr_m mrs'') as [| p | p]; try lia.
  replace (e'' <=? 1024 - 53) with true by (symmetry; apply Z.leb_le; lia).
  eauto.
Qed.

Lemma pos_iter_xO (p k : positive) :
  Z.pos (Pos.iter xO p k) = Z.pos p * 2 ^ Z.pos k.
Proof.
  induction k as [| k IH] using Pos.peano_ind.
  - simpl. lia.
  - rewrite Pos.iter_succ, Pos2Z.inj_succ, Z.pow_succ_r by lia.
    change (Z.pos (Pos.iter xO p k)~0) with (2 * Z.pos (Pos.iter xO p k)).
    rewrite IH. lia.
Qed.

Lemma binary_round_not_nan (s : bool) (p : positive) (e : Z) :
  binary_round 53 1024 s p e <> S754_nan.
Proof.
  unfold binary_round. destruct (shl_align p e _) as [mz ez].
  apply binary_round_aux_not_nan. lia.
Qed.

Lemma of_int_not_nan (z : Z) : F64.of_int z <> S754_nan.
Proof.
  unfold F64.of_int, binary_normalize.
  destruct z; [ discriminate | apply binary_round_not_nan .. ].
Qed.

(** A positive integer below 2^64 converts to a positive finite float. *)
Lemma of_int_pos_finite (z : Z) :
  0 < z < 2 ^ 64 -> exists m e, F64.of_int z = S754_finite false m e.
Proof.
  intros [H0 H1]. destruct z as [| p | p]; try lia.
  unfold F64.of_int, binary_normalize, binary_round, shl_align, F64.prec,
    F64.emax.
  rewrite fexp64.
  destruct (Zdigits2_bounds (Z.pos p) H0) as (Hd & Hlo & Hhi).
  assert (Hd64 : Zdigits2 (Z.pos p) <= 64)
    by (apply Zdigits2_le; lia).
  simpl Zdigits2 in *.
  set (d := Z.pos (digits2_pos p)) in *.
  rewrite Z.add_0_r, Z.sub_0_r.
  replace (Z.max (d - 53) (-1074)) with (d - 53) by lia.
  destruct (d - 53) as [| k | k] eqn:Ek.
  - apply binary_round_aux_finite; simpl Zdigits2; lia.
  - apply binary_round_aux_finite; simpl Zdigits2; lia.
  - assert (Hv : Z.pos (Pos.iter xO p k) = Z.pos p * 2 ^ Z.pos k)
      by apply pos_iter_xO.
    assert (P : 0 < 2 ^ Z.pos k) by (apply Z.pow_pos_nonneg; lia).
    assert (Hlt : Z.pos (Pos.iter xO p k) < 2 ^ 53).
    { rewrite Hv. replace 53 with (d + Z.pos k) by lia.
      rewrite Z.pow_add_r by lia. nia. }
    assert (Hdig : Zdigits2 (Z.pos (Pos.iter xO p k)) <= 53)
      by (apply Zdigits2_le; lia).
    apply binary_round_aux_finite; lia.
Qed.

Lemma div_not_nan (x : F64.float64) (s : bool) (m : positive) (e : Z) :
  x <> S754_nan -> F64.div x (S754_finite s m e) <> S754_nan.
Proof.
  intros Hx. unfold F64.div, SFdiv.
  destruct x as [sx | sx | | sx mx ex]; try discriminate; try contradiction.
  unfold SFdiv_core_binary.
  set (m' := match _ - _ - _ with Z0 => _ | Zpos _ => _ | Zneg _ => _ end).
  assert (Hm' : 0 <= m').
  { unfold m'. destruct (_ - _ - _); try lia. apply Z.shiftl_nonneg. lia. }
  pose proof (Z.div_pos m' (Z.pos m) Hm' ltac:(lia)) as Hq.
  unfold Z.div in Hq. destruct (Z.div_eucl m' (Z.pos m)) as [q r].
  simpl in Hq. apply binary_round_aux_not_nan. exact Hq.
Qed.

Lemma mul_not_nan (x : F64.float64) (s : bool) (m : positive) (e : Z) :
  x <> S754_nan -> F64.mul x (S754_finite s m e) <> S754_nan.
Proof.
  intros Hx. unfold F64.mul, SFmul.
  destruct x as [sx | sx | | sx mx ex]; try discriminate; try contradiction.
  apply binary_round_aux_not_nan. lia.
Qed.

Lemma SFcompare_swap (x y : spec_float) (c : comparison) :
  SFcompare x y = Some c -> SFcompare y x = Some (CompOpp c).
Proof.
  destruct x as [sx | sx | | sx mx ex], y as [sy | sy | | sy my ey]; simpl;
    try discriminate;
    try (intros H; injection H as <-;
         repeat match goal with b : bool |- _ => destruct b end;
         reflexivity).
  intros H. injection H as <-. f_equal.
  destruct sx, sy; simpl; try reflexivity.
  - rewrite (Z.compare_antisym ex ey).
    destruct (ex ?= ey); simpl; try reflexivity.
    rewrite ?CompOpp_involutive, Pos.compare_cont_antisym; reflexivity.
  - rewrite (Z.compare_antisym ex ey).
    destruct (ex ?= ey); simpl; try reflexivity.
    rewrite ?CompOpp_involutive, Pos.compare_cont_antisym; reflexivity.
Qed.

(** ** The clamps of the progress report *)

Lemma of_int_100 : F64.of_int 100 = S754_finite false 7036874417766400 (-46).
Proof. reflexivity. Qed.

Lemma SFcompare_finite_none (s : bool) (m : positive) (e : Z)
    (y : spec_float) :
  SFcompare (S754_finite s m e) y = None -> y = S754_nan.
Proof. destruct y; simpl; try discriminate. reflexivity. Qed.

Lemma percentOf_at_most_100 (written total : Z) :
  0 < total -> Int64.in_range total ->
  F64.leb (percentOf written total) (F64.of_int 100) = true.
Proof.
  intros Hpos Hr.
  unfold Int64.in_range, Int64.min_int, Int64.max_int in Hr.
  assert (Hb : 0 < total < 2 ^ 64) by lia.
  destruct (of_int_pos_finite total Hb) as (m & e & Ht).
  unfold percentOf. rewrite Ht, of_int_100.
  set (pct := F64.mul (F64.div (F64.of_int written) (S754_finite false m e))
                (S754_finite false 7036874417766400 (-46))).
  assert (Hn : pct <> S754_nan)
    by (apply mul_not_nan, div_not_nan, of_int_not_nan).
  unfold F64.ltb, F64.leb, SFltb, SFleb.
  destruct (SFcompare (S754_finite false 7036874417766400 (-46)) pct)
    as [c |] eqn:E.
  - apply SFcompare_swap in E. destruct c; simpl in E.
    + now rewrite E.
    + reflexivity.
    + now rewrite E.
  - apply SFcompare_finite_none in E. contradiction.
Qed.

Lemma remainingBytesOf_nonneg (written total : Z) :
  0 <= remainingBytesOf written total.
Proof.
  unfold remainingBytesOf.
  destruct (Int64.sub total written <? 0) eqn:E; [ lia | ].
  apply Z.ltb_ge in E. exact E.
Qed.

(** C8: every progress line emitted for a total above zero reports a
    percentage of at most 100, and the remaining bytes behind its ETA, when
    an ETA is computed, are at least 0, whatever [written] is. *)
Theorem progress_report_clamped (d d' : Downloader)
    (written total since : Z) (line : ProgressLine) :
  0 < total -> Int64.in_range total ->
  printProgress d written total since = (d', Some line) ->
  (exists pct, linePct line = Some pct /\
               F64.leb pct (F64.of_int 100) = true) /\
  (forall rb, lineRemainingBytes line = Some rb -> 0 <= rb).
Proof.
  intros Hpos Hr. unfold printProgress.
  destruct (F64.eqb (Seconds since) F64.zero); [ discriminate | ].
  replace (0 <? total) with true by (symmetry; apply Z.ltb_lt; exact Hpos).
  intros H. injection H as _ <-. split.
  - eexists. split; [ reflexivity | ].
    apply percentOf_at_most_100; assumption.
  - intros rb. simpl. unfold etaOf.
    destruct ((0 <? total) && F64.ltb F64.zero _); [ | discriminate ].
    intros E. injection E as <-. apply remainingBytesOf_nonneg.
Qed.

(** 50,000,000 bytes written of a total of 10,000,003, 1.5 s after the
    start: the line reports 100 percent and 0 bytes remaining. *)
Lemma progress_report_clamped_witness :
  exists line,
    snd (printProgress (mkDownloader []) 50000000 10000003 1500000000)
      = Some line /\
    linePct line = Some (F64.of_int 100) /\
    lineRemainingBytes line = Some 0 /\
    (exists pct, linePct line = Some pct /\
                 F64.leb pct (F64.of_int 100) = true) /\
    (forall rb, lineRemainingBytes line = Some rb -> 0 <= rb).
Proof.
  eexists. split; [ vm_compute; reflexivity | ].
  split; [ reflexivity | ]. split; [ reflexivity | ].
  apply (progress_report_clamped (mkDownloader [])
           (fst (printProgress (mkDownloader []) 50000000 10000003
                   1500000000))
           50000000 10000003 1500000000).
  - reflexivity.
  - split; vm_compute; discriminate.
  - vm_compute. reflexivity.
Defined.

(** * The rest of the engine *)

(** ** Seeding for every size *)

(** The number of offsets in the range of a segment. *)
Definition segmentLength (s : Segment) : Z := End_ s - Start s + 1.

Definition sumZ (l : list Z) : Z := fold_right Z.add 0 l.

(** Ranges that tile an interval have its length in all. *)
Lemma contiguous_length (rs : list (Z * Z)) (lo hi : Z) :
  contiguous lo hi rs = true ->
  sumZ (map (fun r => snd r - fst r + 1) rs) = hi - lo + 1.
Proof.
  revert lo. induction rs as [| [a b] rs IH]; intros lo H; simpl in *.
  - apply Z.eqb_eq in H. lia.
  - apply andb_true_iff in H. destruct H as [Ha Hr].
    apply Z.eqb_eq in Ha. subst a. rewrite (IH _ Hr). lia.
Qed.

Lemma seedSegments_unfold (totalSize : Z) :
  seedSegments totalSize =
    [ seedSegment totalSize 0; seedSegment totalSize 1;
      seedSegment totalSize 2; seedSegment totalSize 3;
      seedSegment totalSize 4; seedSegment totalSize 5;
      seedSegment totalSize 6; seedSegment totalSize 7 ].
Proof. reflexivity. Qed.

(** The seeding loop, for every Content-Length from 0 on: the eight segments
    have the IDs 0..7 and nothing downloaded, their ranges in slice order
    tile [0 .. total_size], and so they ask for total_size + 1 bytes of a
    file of total_size bytes. *)
Theorem seed_ranges_tile (totalSize : Z) :
  0 <= totalSize <= Int64.max_int ->
  map ID (seedSegments totalSize) = [0; 1; 2; 3; 4; 5; 6; 7] /\
  Forall (fun s => Downloaded s = 0) (seedSegments totalSize) /\
  contiguous 0 totalSize (map range (seedSegments totalSize)) = true /\
  sumZ (map segmentLength (seedSegments totalSize)) = totalSize + 1.
Proof.
  intros H.
  pose proof (seed_tiles_through_total_size totalSize H) as Ht.
  split; [ reflexivity | ]. split.
  - rewrite seedSegments_unfold. repeat constructor.
  - split; [ exact Ht | ].
    apply contiguous_length in Ht. rewrite map_map in Ht.
    unfold segmentLength. unfold range in Ht. simpl fst in Ht.
    simpl snd in Ht. rewrite Ht. lia.
Qed.

Lemma seed_ranges_tile_witness :
  map ID (seedSegments 16777216) = [0; 1; 2; 3; 4; 5; 6; 7] /\
  Forall (fun s => Downloaded s = 0) (seedSegments 16777216) /\
  contiguous 0 16777216 (map range (seedSegments 16777216)) = true /\
  sumZ (map segmentLength (seedSegments 16777216)) = 16777216 + 1.
Proof.
  apply (seed_ranges_tile 16777216). split; vm_compute; discriminate.
Defined.

(** A file shorter than eight bytes: segmentSize is 0, the first seven
    segments are the empty range [0 .. -1] (their request is
    bytes=0--1), and the eighth is [0 .. total_size]. *)
Theorem seed_short_file (totalSize : Z) :
  0 <= totalSize < 8 ->
  segmentSizeOf totalSize = 0 /\
  map range (seedSegments totalSize) =
    [(0, -1); (0, -1); (0, -1); (0, -1); (0, -1); (0, -1); (0, -1);
     (0, totalSize)] /\
  map rangeHeader (firstn 7 (seedSegments totalSize)) =
    [(0, -1); (0, -1); (0, -1); (0, -1); (0, -1); (0, -1); (0, -1)].
Proof.
  intros H.
  assert (Hq : totalSize / 8 = 0) by (apply Z.div_small; lia).
  assert (Hm : 0 <= totalSize <= Int64.max_int)
    by (unfold Int64.max_int; lia).
  split.
  - unfold segmentSizeOf, InitialSegments, Int64.quot.
    rewrite Z.quot_div_nonneg, Hq by lia. reflexivity.
  - rewrite seedSegments_unfold.
    rewrite !seedSegment_plain by (try exact Hm; lia).
    rewrite Hq. split; reflexivity.
Qed.

Lemma seed_short_file_witness :
  segmentSizeOf 5 = 0 /\
  map range (seedSegments 5) =
    [(0, -1); (0, -1); (0, -1); (0, -1); (0, -1); (0, -1); (0, -1); (0, 5)] /\
  map rangeHeader (firstn 7 (seedSegments 5)) =
    [(0, -1); (0, -1); (0, -1); (0, -1); (0, -1); (0, -1); (0, -1)].
Proof. apply (seed_short_file 5). lia. Defined.

(** Segments whose IDs ascend strictly are in ascending order and have
    distinct IDs. *)
Lemma ascending_ids (l : list Segment) :
  StronglySorted Z.lt (map ID l) ->
  StronglySorted (fun a b => ID a <= ID b) l /\ NoDup (map ID l).
Proof.
  induction l as [| a l IH]; simpl; intros H.
  - split; constructor.
  - apply StronglySorted_inv in H. destruct H as [H F].
    destruct (IH H) as [S N]. split.
    + constructor; [ exact S | ].
      rewrite Forall_map in F. eapply Forall_impl; [ | exact F ].
      simpl. intros b Hb. lia.
    + constructor; [ | exact N ].
      intros I. rewrite Forall_forall in F. specialize (F _ I). lia.
Qed.

(** ** More on the body loop *)

(** Segment 0 of a 10,000,003-byte file receives the 1,250,000 bytes it asked
    for. *)
Lemma readLoop_within_range_witness :
  segmentInv (fst (readLoop (wholeBody 1250000) (seedSegment 10000003 0))).
Proof.
  apply readLoop_within_range.
  - split; vm_compute; discriminate.
  - split; vm_compute; discriminate.
  - unfold wholeBody. apply Forall_app. split.
    + apply Forall_forall. intros r Hr. apply repeat_spec in Hr. subst r.
      vm_compute. discriminate.
    + constructor; [ | constructor ]. vm_compute. discriminate.
  - vm_compute. discriminate.
Defined.

(** ** Waiting for the workers (lines 155-168, 250-251, 309-311)

    The wait group, the job queue and the places of the main goroutine.  A
    worker leaves the loop [for segment := range segmentChan] only when the
    channel is closed and empty, and calls [wg.Done] then; the main
    goroutine closes the channel after [wg.Wait] has returned. *)

Module Completion.

Inductive MainPC : Type :=
| AtWait      (* line 250: wg.Wait() *)
| AtClose     (* line 251: close(segmentChan) *)
| Merging.    (* line 253 on *)

Record State : Type := mkState {
  wg : Z;               (* the counter of the wait group *)
  queue : list Z;       (* the IDs of the segments in segmentChan *)
  closed : bool;        (* segmentChan is closed *)
  main : MainPC
}.

(** Lines 155-168: eight workers, eight segments queued. *)
Definition init : State := mkState InitialSegments [0; 1; 2; 3; 4; 5; 6; 7]
                                   false AtWait.

Inductive step : State -> State -> Prop :=
| worker_receive st id q :            (* line 311, a segment arrives *)
    queue st = id :: q ->
    step st (mkState (wg st) q (closed st) (main st))
| worker_exit st :                    (* line 311 ends, line 310: wg.Done() *)
    queue st = [] -> closed st = true ->
    step st (mkState (wg st - 1) (queue st) (closed st) (main st))
| worker_admitted st :                (* line 85: wg.Add(1) *)
    step st (mkState (wg st + 1) (queue st) (closed st) (main st))
| segment_enqueued st id :            (* line 240: segmentChan <- newSegment *)
    closed st = false -> (length (queue st) < Z.to_nat MaxWorkers)%nat ->
    step st (mkState (wg st) (queue st ++ [id]) (closed st) (main st))
| main_wait_returns st :              (* line 250 *)
    main st = AtWait -> wg st = 0 ->
    step st (mkState (wg st) (queue st) (closed st) AtClose)
| main_closes st :                    (* line 251 *)
    main st = AtClose ->
    step st (mkState (wg st) (queue st) true Merging).

Inductive reachable : State -> Prop :=
| reach_init : reachable init
| reach_step st st' : reachable st -> step st st' -> reachable st'.

End Completion.

(** [wg.Wait] never returns: in every reachable state the main goroutine is
    still at line 250, the channel is open and the wait group counts at
    least the eight initial workers, none of which has left its loop; the
    merge of lines 253-305 is never reached. *)
Theorem wait_never_returns (st : Completion.State) :
  Completion.reachable st ->
  Completion.main st = Completion.AtWait /\
  Completion.closed st = false /\
  InitialSegments <= Completion.wg st.
Proof.
  induction 1 as [| st st' _ IH Hstep].
  - repeat split. vm_compute. discriminate.
  - destruct IH as (Hm & Hc & Hw). unfold InitialSegments in *.
    destruct Hstep; simpl; try (exfalso; congruence);
      repeat split; try assumption; lia.
Qed.

(** The state after the eight seeded segments have been received. *)
Definition queueDrained : Completion.State :=
  Completion.mkState InitialSegments [] false Completion.AtWait.

Lemma wait_never_returns_witness :
  Completion.main queueDrained = Completion.AtWait /\
  Completion.closed queueDrained = false /\
  InitialSegments <= Completion.wg queueDrained.
Proof.
  apply (wait_never_returns queueDrained).
  assert (D : forall q' q,
    Completion.reachable
      (Completion.mkState InitialSegments (q' ++ q) false Completion.AtWait) ->
    Completion.reachable
      (Completion.mkState InitialSegments q false Completion.AtWait)).
  { induction q' as [| id q' IH]; intros q R; [ exact R | ].
    apply IH.
    exact (Completion.reach_step _ _ R
             (Completion.worker_receive
                (Completion.mkState InitialSegments ((id :: q') ++ q) false
                   Completion.AtWait) id (q' ++ q) eq_refl)). }
  apply (D [0; 1; 2; 3; 4; 5; 6; 7] []). apply Completion.reach_init.
Defined.

(** ** The worker pool *)

(** The worker IDs are the indices of the slice and the wait group counts
    the workers. *)
Definition poolInv (st : Shared) : Prop :=
  map WID (workers st) = map Z.of_nat (seq 0 (length (workers st))) /\
  wgCount st = Z.of_nat (length (workers st)).

Lemma initialShared_poolInv (totalSize : Z) : poolInv (initialShared totalSize).
Proof. split; reflexivity. Qed.



(** ** The Splitter loop as a whole *)

(** An iteration of the Splitter loop that returns and goes on has not
    created a worker or split a segment, and leaves [workersMu] locked;
    from a state with [workersMu] locked every iteration ends the goroutine
    (line 201) or blocks at line 204.  The Splitter probes once at most. *)
Theorem splitter_probes_once (totalSize : Z) (probe : ProbeResult)
    (createOK : bool) (st st' : Shared) (o : SplitOutcome) (created : bool) :
  splitterTick totalSize probe createOK st =
    Returns (st', TickContinue o created) ->
  created = false /\ o = SplitSkipped /\
  workersMu st' = true /\
  workers st' = workers st /\ segments st' = segments st /\
  segmentChan st' = segmentChan st /\
  forall totalSize' probe' createOK' st'',
    workersMu st'' = true ->
    splitterTick totalSize' probe' createOK' st'' = Blocks 204 \/
    splitterTick totalSize' probe' createOK' st'' = Returns (st'', TickReturn).
Proof.
  intros H.
  assert (Later : forall totalSize' probe' createOK' st'',
    workersMu st'' = true ->
    splitterTick totalSize' probe' createOK' st'' = Blocks 204 \/
    splitterTick totalSize' probe' createOK' st'' = Returns (st'', TickReturn)).
  { intros t p c s Hmu. unfold splitterTick.
    destruct (t <=? totalDownloaded s); [ right; reflexivity | ].
    rewrite Hmu. left. reflexivity. }
  unfold splitterTick in H.
  destruct (totalSize <=? totalDownloaded st); [ discriminate | ].
  destruct (workersMu st); [ discriminate | ].
  destruct probe as [| | code]; simpl in H.
  - injection H as <- <- <-. repeat split; auto.
  - injection H as <- <- <-. repeat split; auto.
  - destruct (negb (code =? StatusPartialContent) && negb (code =? StatusOK));
      simpl in H; [ | discriminate ].
    injection H as <- <- <-. repeat split; auto.
Qed.

Lemma splitter_probes_once_witness :
  false = false /\ SplitSkipped = SplitSkipped /\
  workersMu (withWorkersMu true (initialShared 10000003)) = true /\
  workers (withWorkersMu true (initialShared 10000003)) =
    workers (initialShared 10000003) /\
  segments (withWorkersMu true (initialShared 10000003)) =
    segments (initialShared 10000003) /\
  segmentChan (withWorkersMu true (initialShared 10000003)) =
    segmentChan (initialShared 10000003) /\
  forall totalSize' probe' createOK' st'',
    workersMu st'' = true ->
    splitterTick totalSize' probe' createOK' st'' = Blocks 204 \/
    splitterTick totalSize' probe' createOK' st'' = Returns (st'', TickReturn).
Proof.
  apply (splitter_probes_once 10000003 (ProbeStatus 404) true
           (initialShared 10000003)).
  reflexivity.
Defined.

(** The Splitter has taken [workersMu] at line 204 and stands before the
    [Lock] of line 81. *)
Definition splitterAtLine81 : LockModel.State :=
  LockModel.setOwner LockModel.PoolMu (Some LockModel.Splitter)
    (LockModel.setCont LockModel.Splitter
       (tl (LockModel.splitterPath true [] 0 true))
       (LockModel.setCont LockModel.Splitter
          (LockModel.splitterPath true [] 0 true) LockModel.init)).

Lemma splitter_never_splits_witness :
  LockModel.cont splitterAtLine81 LockModel.Splitter =
    LockModel.Acquire LockModel.PoolMu
      :: tl (tl (LockModel.splitterPath true [] 0 true)) /\
  ~ LockModel.holds splitterAtLine81 LockModel.Splitter LockModel.StoreMu /\
  (forall i,
     ~ LockModel.holds splitterAtLine81 LockModel.Splitter (LockModel.SegMu i)) /\
  (forall st',
     ~ LockModel.step splitterAtLine81 LockModel.Splitter
         (Some (LockModel.Release LockModel.PoolMu)) st').
Proof.
  split; [ reflexivity | ].
  apply (LockFacts.splitter_never_splits splitterAtLine81).
  apply (LockModel.reach_step
           (LockModel.setCont LockModel.Splitter
              (LockModel.splitterPath true [] 0 true) LockModel.init)
           LockModel.Splitter
           (Some (LockModel.Acquire LockModel.PoolMu))).
  - apply (LockModel.reach_step LockModel.init LockModel.Splitter None);
      [ apply LockModel.reach_init | ].
    apply (LockModel.step_start LockModel.init LockModel.Splitter
             (LockModel.splitterPath true [] 0 true));
      [ reflexivity | constructor ].
  - apply (LockModel.step_acquire
             (LockModel.setCont LockModel.Splitter
                (LockModel.splitterPath true [] 0 true) LockModel.init)
             LockModel.Splitter LockModel.PoolMu
             (tl (LockModel.splitterPath true [] 0 true))); reflexivity.
Defined.

(** ** The rolling window *)

(** The sample [printProgress] appends for a call, when it goes on
    (lines 385, 388). *)
Definition speedSample (written since : Z) : Z :=
  F64.to_int64
    (F64.div (F64.div (F64.of_int written) (F64.of_int 1024)) (Seconds since)).

(** The samples of the calls that are not skipped at line 383, in order. *)
Definition samplesOf (calls : list (Z * Z * Z)) : list Z :=
  map (fun c => speedSample (fst (fst c)) (snd c))
      (filter (fun c => negb (F64.eqb (Seconds (snd c)) F64.zero)) calls).

(** The last [n] elements. *)
Definition lastN {A : Type} (n : nat) (l : list A) : list A :=
  skipn (length l - n) l.

Lemma pushSample_lastN (x : Z) (w : list Z) :
  (length w <= windowCap)%nat ->
  pushSample x w = lastN windowCap (w ++ [x]).
Proof.
  unfold pushSample, lastN, windowCap. intros H.
  rewrite length_app. simpl length.
  destruct (30 <? length w + 1)%nat eqn:E.
  - apply Nat.ltb_lt in E. replace (length w + 1 - 30)%nat with 1%nat by lia.
    destruct w; reflexivity.
  - apply Nat.ltb_ge in E. replace (length w + 1 - 30)%nat with 0%nat by lia.
    reflexivity.
Qed.

Lemma lastN_app_lastN {A : Type} (n : nat) (l l' : list A) :
  lastN n (lastN n l ++ l') = lastN n (l ++ l').
Proof.
  unfold lastN. rewrite !length_app, length_skipn.
  destruct (Nat.le_gt_cases (length l) n) as [H | H].
  - replace (length l - n)%nat with 0%nat by lia. simpl.
    now rewrite Nat.sub_0_r.
  - replace (length l - (length l - n) + length l' - n)%nat
      with (length l')%nat by lia.
    replace (length l + length l' - n)%nat
      with ((length l - n) + length l')%nat by lia.
    rewrite !skipn_app, length_skipn.
    replace (length l' - (length l - (length l - n)))%nat
      with (length l' - n)%nat by lia.
    replace (length l - n + length l' - length l)%nat
      with (length l' - n)%nat by lia.
    rewrite skipn_skipn.
    replace (length l' + (length l - n))%nat
      with (length l - n + length l')%nat by lia.
    reflexivity.
Qed.

Lemma progressRun_window (calls : list (Z * Z * Z)) (d : Downloader) :
  (length (bytesDownloadedPerSecond d) <= windowCap)%nat ->
  bytesDownloadedPerSecond (progressRun calls d) =
    lastN windowCap (bytesDownloadedPerSecond d ++ samplesOf calls).
Proof.
  revert d. induction calls as [| c calls IH]; intros d H.
  - simpl. unfold samplesOf. simpl. rewrite app_nil_r.
    unfold lastN. replace (_ - _)%nat with 0%nat by lia. reflexivity.
  - simpl. rewrite IH by (apply printProgress_length, H).
    unfold samplesOf. simpl filter. unfold printProgress.
    destruct (F64.eqb (Seconds (snd c)) F64.zero); simpl.
    + reflexivity.
    + rewrite (pushSample_lastN _ _ H).
      fold (speedSample (fst (fst c)) (snd c)).
      rewrite lastN_app_lastN, <- app_assoc. reflexivity.
Qed.

(** After any number of calls of [printProgress] on a downloader that
    starts with an empty window, the window holds the samples of the calls
    that were not skipped, in order, the last 30 of them when there are
    more. *)
Theorem window_is_last_30_samples (calls : list (Z * Z * Z)) :
  bytesDownloadedPerSecond (progressRun calls (mkDownloader [])) =
    lastN 30 (samplesOf calls).
Proof.
  rewrite progressRun_window by (simpl; unfold windowCap; lia).
  reflexivity.
Qed.

(** ** The sign of the percentage *)

Definition notNegative (f : F64.float64) : bool :=
  match f with
  | S754_zero false | S754_infinity false | S754_finite false _ _ => true
  | _ => false
  end.

Lemma binary_round_aux_sign (s : bool) (mx ex : Z) (lx : location) :
  0 <= mx ->
  match binary_round_aux 53 1024 s mx ex lx with
  | S754_zero s' | S754_infinity s' | S754_finite s' _ _ => s' = s
  | S754_nan => False
  end.
Proof.
  intros H. unfold binary_round_aux.
  pose proof (shr_fexp_nonneg mx ex lx H) as H1.
  destruct (shr_fexp 53 1024 mx ex lx) as [mrs' e']. simpl in H1.
  pose proof (round_nearest_even_bounds (shr_m mrs') (loc_of_shr_record mrs'))
    as H2.
  pose proof (shr_fexp_nonneg
                (round_nearest_even (shr_m mrs') (loc_of_shr_record mrs'))
                e' loc_Exact ltac:(lia)) as H3.
  destruct (shr_fexp 53 1024 _ e' loc_Exact) as [mrs'' e'']. simpl in H3.
  destruct (shr_m mrs'') as [| p | p]; try reflexivity; try lia.
  destruct (e'' <=? 1024 - 53); reflexivity.
Qed.

Lemma notNegative_round (mx ex : Z) (lx : location) :
  0 <= mx -> notNegative (binary_round_aux 53 1024 false mx ex lx) = true.
Proof.
  intros H. pose proof (binary_round_aux_sign false mx ex lx H) as S.
  destruct (binary_round_aux 53 1024 false mx ex lx); try contradiction;
    subst; reflexivity.
Qed.

Lemma of_int_notNegative (z : Z) : 0 <= z -> notNegative (F64.of_int z) = true.
Proof.
  intros H. destruct z as [| p | p]; try lia; [ reflexivity | ].
  unfold F64.of_int, binary_normalize, binary_round.
  destruct (shl_align p 0 _) as [mz ez]. apply notNegative_round. lia.
Qed.

Lemma div_notNegative (x : F64.float64) (m : positive) (e : Z) :
  notNegative x = true ->
  notNegative (F64.div x (S754_finite false m e)) = true.
Proof.
  intros Hx. unfold F64.div, SFdiv.
  destruct x as [[|] | [|] | | [|] mx ex]; try discriminate; try reflexivity.
  unfold SFdiv_core_binary.
  set (m' := match _ - _ - _ with Z0 => _ | Zpos _ => _ | Zneg _ => _ end).
  assert (Hm' : 0 <= m').
  { unfold m'. destruct (_ - _ - _); try lia. apply Z.shiftl_nonneg. lia. }
  pose proof (Z.div_pos m' (Z.pos m) Hm' ltac:(lia)) as Hq.
  unfold Z.div in Hq. destruct (Z.div_eucl m' (Z.pos m)) as [q r].
  simpl in Hq. apply notNegative_round. exact Hq.
Qed.

Lemma mul_notNegative (x : F64.float64) (m : positive) (e : Z) :
  notNegative x = true ->
  notNegative (F64.mul x (S754_finite false m e)) = true.
Proof.
  intros Hx. unfold F64.mul, SFmul.
  destruct x as [[|] | [|] | | [|] mx ex]; try discriminate; try reflexivity.
  apply notNegative_round. lia.
Qed.

Lemma notNegative_leb (f : F64.float64) :
  notNegative f = true -> F64.leb F64.zero f = true.
Proof.
  destruct f as [[|] | [|] | | [|] m e]; try discriminate; reflexivity.
Qed.

(** For [written >= 0] and [total > 0] the reported percentage lies between
    0 and 100. *)
Theorem percent_between_0_and_100 (written total : Z) :
  0 <= written -> 0 < total -> Int64.in_range total ->
  F64.leb F64.zero (percentOf written total) = true /\
  F64.leb (percentOf written total) (F64.of_int 100) = true.
Proof.
  intros Hw Hpos Hr. split; [ | apply percentOf_at_most_100; assumption ].
  apply notNegative_leb.
  assert (Hb : 0 < total < 2 ^ 64).
  { unfold Int64.in_range, Int64.min_int, Int64.max_int in Hr. lia. }
  destruct (of_int_pos_finite total Hb) as (m & e & Ht).
  unfold percentOf. rewrite Ht, of_int_100.
  destruct (F64.ltb _ _); [ reflexivity | ].
  apply mul_notNegative, div_notNegative, of_int_notNegative, Hw.
Qed.

Lemma percent_between_0_and_100_witness :
  F64.leb F64.zero (percentOf 5000000 10000003) = true /\
  F64.leb (percentOf 5000000 10000003) (F64.of_int 100) = true.
Proof.
  apply (percent_between_0_and_100 5000000 10000003).
  - lia.
  - lia.
  - split; vm_compute; discriminate.
Defined.

(** ** Part files and their bytes

    The body loop and the merge once more, now with the bytes that go
    through them.  The file system is the content of the part file of every
    segment ID ([<filename>.part<ID>]), if the file exists. *)

Definition Bytes : Type := list Byte.byte.

(** One [resp.Body.Read]: the bytes it delivered, its error, and, when the
    following [segment.File.Write] fails, the number of bytes it wrote
    before failing. *)
Record DataEvent : Type := mkData {
  chunk : Bytes;
  dataErr : ReadError;
  shortWrite : option nat
}.

Definition eraseEvent (e : DataEvent) : ReadEvent :=
  mkRead (Z.of_nat (length (chunk e))) (dataErr e)
         (match shortWrite e with Some _ => true | None => false end).

(** Lines 358-375 with the part file. *)
Fixpoint readLoopData (body : list DataEvent) (s : Segment) (file : Bytes)
  : Segment * Bytes * SegmentResult :=
  match body with
  | [] => (s, file, SegOK)
  | r :: body' =>
    let n := Z.of_nat (length (chunk r)) in
    match (0 <? n), shortWrite r with
    | true, Some k => (s, file ++ firstn k (chunk r), SegWriteError)
    | _, _ =>
      let s' := if 0 <? n then addDownloaded n s else s in
      let file' := if 0 <? n then file ++ chunk r else file in
      match dataErr r with
      | ReadNil => readLoopData body' s' file'
      | ReadEOF => (s', file', SegOK)
      | ReadFailed => (s', file', SegReadError)
      end
    end
  end.

Inductive DataResponse : Type :=
| DataRespError
| DataResp (status : Z) (body : list DataEvent).

Definition eraseResponse (r : DataResponse) : Response :=
  match r with
  | DataRespError => RespError
  | DataResp status body => Resp status (map eraseEvent body)
  end.

(** [downloadSegment] with the part file. *)
Definition downloadSegmentData (resp : DataResponse) (s : Segment)
    (file : Bytes) : Segment * Bytes * SegmentResult :=
  match resp with
  | DataRespError => (s, file, SegDoError)
  | DataResp status body =>
    if negb (status =? StatusPartialContent) && negb (status =? StatusOK)
    then (s, file, SegStatusError)
    else readLoopData body s file
  end.

Definition bodyBytes (body : list DataEvent) : Z :=
  sumZ (map (fun e => Z.of_nat (length (chunk e))) body).

(** The model with bytes and the model with byte counts agree on the
    segment and on the result. *)
Lemma readLoopData_erase (body : list DataEvent) (s : Segment) (file : Bytes) :
  fst (fst (readLoopData body s file)) = fst (readLoop (map eraseEvent body) s)
  /\ snd (readLoopData body s file) = snd (readLoop (map eraseEvent body) s).
Proof.
  revert s file. induction body as [| r body IH]; intros s file; simpl.
  - auto.
  - destruct (0 <? Z.of_nat (length (chunk r))) eqn:E;
      destruct (shortWrite r) as [k |]; simpl; auto;
      destruct (dataErr r); simpl; auto.
Qed.

Lemma downloadSegmentData_erase (resp : DataResponse) (s : Segment)
    (file : Bytes) :
  fst (fst (downloadSegmentData resp s file)) =
    fst (downloadSegment (eraseResponse resp) s) /\
  snd (downloadSegmentData resp s file) =
    snd (downloadSegment (eraseResponse resp) s).
Proof.
  destruct resp as [| status body]; simpl; [ auto | ].
  destruct (negb (status =? StatusPartialContent) && negb (status =? StatusOK));
    simpl; [ auto | apply readLoopData_erase ].
Qed.

(** The counter follows the part file: when [Downloaded] is the length of
    the part file before the loop, it is its length after the loop unless a
    write failed; a failed write may leave bytes in the file that are not
    counted.  The loop only appends to the file. *)
Theorem counter_follows_part_file (body : list DataEvent) (s : Segment)
    (file : Bytes) :
  Downloaded s = Z.of_nat (length file) ->
  Z.of_nat (length file) + bodyBytes body <= Int64.max_int ->
  let '(s', file', res) := readLoopData body s file in
  (exists added, file' = file ++ added) /\
  Downloaded s' <= Z.of_nat (length file') /\
  (res <> SegWriteError -> Downloaded s' = Z.of_nat (length file')).
Proof.
  revert s file. induction body as [| r body IH]; intros s file HD Hfit.
  - simpl. split; [ exists []; now rewrite app_nil_r | ].
    split; [ lia | intros _; exact HD ].
  - unfold bodyBytes in Hfit. simpl in Hfit. fold (bodyBytes body) in Hfit.
    assert (Hrest : 0 <= bodyBytes body).
    { unfold bodyBytes. clear. induction body; simpl; lia. }
    unfold Int64.max_int in Hfit.
    simpl. destruct (0 <? Z.of_nat (length (chunk r))) eqn:E.
    + destruct (shortWrite r) as [k |].
      * split; [ eexists; reflexivity | ].
        split; [ rewrite length_app; lia | intros H; now contradiction H ].
      * assert (Hadd : Downloaded (addDownloaded (Z.of_nat (length (chunk r))) s)
                       = Z.of_nat (length (file ++ chunk r))).
        { simpl. rewrite HD, length_app, Nat2Z.inj_add. unwrap. reflexivity. }
        assert (Hfit' : Z.of_nat (length (file ++ chunk r)) + bodyBytes body
                        <= Int64.max_int).
        { rewrite length_app, Nat2Z.inj_add. unfold Int64.max_int. lia. }
        destruct (dataErr r).
        -- specialize (IH _ _ Hadd Hfit').
           destruct (readLoopData body _ (file ++ chunk r)) as [[s' file'] res].
           destruct IH as ([added Ha] & H1 & H2).
           split; [ exists (chunk r ++ added); now rewrite app_assoc | ].
           split; assumption.
        -- split; [ eexists; reflexivity | ].
           split; [ rewrite Hadd; lia | intros _; exact Hadd ].
        -- split; [ eexists; reflexivity | ].
           split; [ rewrite Hadd; lia | intros _; exact Hadd ].
    + assert (Hfit' : Z.of_nat (length file) + bodyBytes body <= Int64.max_int)
        by (unfold Int64.max_int; lia).
      destruct (shortWrite r); destruct (dataErr r);
        try (specialize (IH _ _ HD Hfit');
             destruct (readLoopData body s file) as [[s' file'] res];
             exact IH);
        (split; [ exists []; now rewrite app_nil_r | ];
         split; [ lia | intros _; exact HD ]).
Qed.

(** Two chunks arrive for a fresh segment; the write of the second one fails
    after one byte. *)
Definition shortWriteBody : list DataEvent :=
  [ mkData [Byte.x61; Byte.x62] ReadNil None;
    mkData [Byte.x63; Byte.x64] ReadNil (Some 1%nat) ].

Lemma counter_follows_part_file_witness :
  let '(s', file', res) :=
    readLoopData shortWriteBody (seedSegment 10000003 0) [] in
  (exists added, file' = [] ++ added) /\
  Downloaded s' <= Z.of_nat (length file') /\
  (res <> SegWriteError -> Downloaded s' = Z.of_nat (length file')).
Proof.
  apply (counter_follows_part_file shortWriteBody (seedSegment 10000003 0) []).
  - reflexivity.
  - vm_compute. discriminate.
Defined.

(** [serves data body]: the body delivers the bytes [data] and nothing
    else, without a failed read or write, and ends with [io.EOF]. *)
Inductive serves : Bytes -> list DataEvent -> Prop :=
| serves_end : serves [] []
| serves_eof c : serves c [mkData c ReadEOF None]
| serves_chunk c data body :
    serves data body -> serves (c ++ data) (mkData c ReadNil None :: body).

Lemma serves_readLoopData (data : Bytes) (body : list DataEvent) :
  serves data body ->
  forall s file,
    0 <= Downloaded s ->
    Downloaded s + Z.of_nat (length data) <= Int64.max_int ->
    let '(s', file', res) := readLoopData body s file in
    ID s' = ID s /\ Start s' = Start s /\ End_ s' = End_ s /\
    Downloaded s' = Downloaded s + Z.of_nat (length data) /\
    file' = file ++ data /\ res = SegOK.
Proof.
  unfold Int64.max_int.
  induction 1 as [| c | c data body _ IH]; intros s file H0 Hfit.
  - simpl. rewrite app_nil_r. repeat split; lia.
  - simpl. destruct (0 <? Z.of_nat (length c)) eqn:E; simpl.
    + repeat split. unwrap. reflexivity.
    + apply Z.ltb_ge in E. destruct c; [ | simpl in E; lia ].
      simpl. rewrite app_nil_r. repeat split; lia.
  - rewrite length_app, Nat2Z.inj_add in Hfit. simpl.
    destruct (0 <? Z.of_nat (length c)) eqn:E.
    + assert (Hadd : Int64.add (Downloaded s) (Z.of_nat (length c))
                     = Downloaded s + Z.of_nat (length c))
        by (unwrap; reflexivity).
      specialize (IH (addDownloaded (Z.of_nat (length c)) s) (file ++ c)).
      simpl in IH. rewrite Hadd in IH.
      specialize (IH ltac:(lia) ltac:(lia)).
      destruct (readLoopData body _ (file ++ c)) as [[s' file'] res].
      destruct IH as (H1 & H2 & H3 & H4 & H5 & H6).
      rewrite length_app, Nat2Z.inj_add, app_assoc.
      repeat split; try assumption; lia.
    + apply Z.ltb_ge in E. destruct c; [ | simpl in E; lia ].
      simpl in *. specialize (IH s file H0 ltac:(lia)).
      destruct (readLoopData body s file) as [[s' file'] res]. exact IH.
Qed.

(** ** The file system and the merge (lines 266-288) *)

Definition FS : Type := Z -> option Bytes.

Definition removePart (id : Z) (fs : FS) : FS :=
  fun i => if i =? id then None else fs i.

(** What can go wrong outside the program while it merges: [os.Open] of a
    part that exists, and [io.Copy] after some bytes. *)
Record MergeFaults : Type := mkFaults {
  openFails : Z -> bool;
  copyFault : Z -> option nat
}.

Definition noFaults : MergeFaults :=
  mkFaults (fun _ => false) (fun _ => None).

(** The loop of lines 271-287 over the sorted slice; returns the destination
    file, the file system and whether the loop ran to its end. *)
Fixpoint mergeLoop (env : MergeFaults) (fs : FS) (segs : list Segment)
    (dest : Bytes) : Bytes * FS * bool :=
  match segs with
  | [] => (dest, fs, true)
  | s :: rest =>
    match fs (ID s) with
    | None => (dest, fs, false)                       (* line 274 *)
    | Some part =>
      if openFails env (ID s) then (dest, fs, false)  (* line 274 *)
      else
        match copyFault env (ID s) with
        | Some k => (dest ++ firstn k part, fs, false)  (* line 281 *)
        | None =>
          mergeLoop env (removePart (ID s) fs) rest (dest ++ part)
        end
    end
  end.

(** Lines 260-288: the destination is created empty, the slice is sorted by
    ID and the parts are appended in that order. *)
Definition mergeParts (env : MergeFaults) (fs : FS) (segs : list Segment)
  : Bytes * FS * bool :=
  mergeLoop env fs (mergeOrder segs) [].

(** The content of the part file of a segment. *)
Definition partOf (fs : FS) (s : Segment) : Bytes :=
  match fs (ID s) with Some b => b | None => [] end.

(** The file system without the parts of the segments [l]. *)
Definition removeParts (l : list Segment) (fs : FS) : FS :=
  fun i => if existsb (fun s => ID s =? i) l then None else fs i.

(** The segments [l] can be merged: their parts exist and nothing fails
    while they are opened and copied. *)
Definition mergeable (env : MergeFaults) (fs : FS) (l : list Segment) : Prop :=
  NoDup (map ID l) /\
  forall s, In s l ->
    fs (ID s) <> None /\ openFails env (ID s) = false /\
    copyFault env (ID s) = None.

Lemma partOf_removePart (fs : FS) (id : Z) (s : Segment) :
  ID s <> id -> partOf (removePart id fs) s = partOf fs s.
Proof.
  intros H. unfold partOf, removePart.
  destruct (ID s =? id) eqn:E; [ apply Z.eqb_eq in E; contradiction | ].
  reflexivity.
Qed.

Lemma mergeLoop_prefix (env : MergeFaults) (l1 : list Segment) :
  forall (fs : FS) (rest : list Segment) (dest : Bytes),
    mergeable env fs l1 ->
    exists fs',
      mergeLoop env fs (l1 ++ rest) dest =
        mergeLoop env fs' rest (dest ++ concat (map (partOf fs) l1)) /\
      forall id, fs' id = removeParts l1 fs id.
Proof.
  induction l1 as [| s l1 IH]; intros fs rest dest [Hnd Hok].
  - exists fs. simpl. rewrite app_nil_r. split; reflexivity.
  - simpl in Hnd. inversion Hnd as [| ? ? Hnot Hnd']; subst.
    destruct (Hok s (or_introl eq_refl)) as (Hs & Ho & Hc).
    assert (Hm : mergeable env (removePart (ID s) fs) l1).
    { split; [ exact Hnd' | ]. intros x Hx.
      destruct (Hok x (or_intror Hx)) as (H1 & H2 & H3).
      repeat split; try assumption.
      unfold removePart. destruct (ID x =? ID s) eqn:E; [ | exact H1 ].
      apply Z.eqb_eq in E. exfalso. apply Hnot. rewrite <- E.
      apply in_map, Hx. }
    destruct (IH (removePart (ID s) fs) rest (dest ++ partOf fs s) Hm)
      as (fs' & Hrun & Hfs).
    exists fs'. split.
    + destruct (fs (ID s)) as [part |] eqn:Ef; [ | contradiction ].
      assert (Ep : partOf fs s = part) by (unfold partOf; now rewrite Ef).
      assert (Em : map (partOf (removePart (ID s) fs)) l1 = map (partOf fs) l1).
      { apply map_ext_in. intros x Hx. apply partOf_removePart.
        intros E. apply Hnot. rewrite <- E. apply in_map, Hx. }
      rewrite Ep, Em in Hrun. simpl. rewrite Ef, Ho, Hc, Hrun, Ep.
      now rewrite <- app_assoc.
    + intros id. rewrite Hfs. unfold removeParts, removePart. simpl.
      rewrite Z.eqb_sym.
      destruct (existsb (fun x => ID x =? id) l1), (ID s =? id); reflexivity.
Qed.

Lemma existsb_perm {A : Type} (f : A -> bool) (l l' : list A) :
  Permutation l l' -> existsb f l = existsb f l'.
Proof.
  induction 1 as [| x l l' _ IH | x y l | l l' l'' _ IH1 _ IH2]; simpl.
  - reflexivity.
  - now rewrite IH.
  - destruct (f x), (f y); reflexivity.
  - congruence.
Qed.

Lemma mergeParts_noFaults (fs : FS) (segs : list Segment) :
  mergeable noFaults fs segs ->
  let '(dest, fs', ok) := mergeParts noFaults fs segs in
  ok = true /\
  dest = concat (map (partOf fs) (mergeOrder segs)) /\
  forall id, fs' id = removeParts segs fs id.
Proof.
  intros [Hnd Hok].
  pose proof (sortByID_perm segs) as HP. fold (mergeOrder segs) in HP.
  assert (Hm : mergeable noFaults fs (mergeOrder segs)).
  { split.
    - eapply Permutation_NoDup;
        [ apply Permutation_map, Permutation_sym, HP | exact Hnd ].
    - intros s Hs. apply Hok. eapply Permutation_in; [ exact HP | exact Hs ]. }
  destruct (mergeLoop_prefix noFaults (mergeOrder segs) fs [] [] Hm)
    as (fs' & Hrun & Hfs).
  unfold mergeParts. rewrite app_nil_r in Hrun. rewrite Hrun. simpl.
  repeat split. intros id. rewrite Hfs. unfold removeParts.
  now rewrite (existsb_perm _ _ _ HP).
Qed.


(** A merge that cannot open or copy the part of a segment stops there: it
    reports the failure, the destination holds the parts before that
    segment (and what was copied of its own part), and those earlier parts
    are removed from disk already. *)
Theorem merge_failure_after_removals (env : MergeFaults) (fs : FS)
    (l1 : list Segment) (s : Segment) (l2 : list Segment) (dest : Bytes) :
  mergeable env fs l1 ->
  removeParts l1 fs (ID s) = None \/ openFails env (ID s) = true \/
    copyFault env (ID s) <> None ->
  let '(dest', fs', ok) := mergeLoop env fs (l1 ++ s :: l2) dest in
  ok = false /\
  (exists extra, dest' = dest ++ concat (map (partOf fs) l1) ++ extra) /\
  forall id, fs' id = removeParts l1 fs id.
Proof.
  intros Hm Hfail.
  destruct (mergeLoop_prefix env l1 fs (s :: l2) dest Hm) as (fs' & Hrun & Hfs).
  rewrite Hrun. simpl. rewrite Hfs.
  destruct (removeParts l1 fs (ID s)) as [part |] eqn:Ep.
  - destruct (openFails env (ID s)) eqn:Eo.
    + split; [ reflexivity | ]. split; [ | exact Hfs ].
      exists []. now rewrite app_nil_r.
    + destruct (copyFault env (ID s)) as [k |] eqn:Ec.
      * split; [ reflexivity | ]. split; [ | exact Hfs ].
        exists (firstn k part). now rewrite app_assoc.
      * exfalso. destruct Hfail as [H | [H | H]];
          [ discriminate | discriminate | now apply H ].
  - split; [ reflexivity | ]. split; [ | exact Hfs ].
    exists []. now rewrite app_nil_r.
Qed.

(** ** A download served as asked *)

(** The workers: every segment of the queue is downloaded once, into the
    part file created empty for it. *)
Definition downloadAllData (respFor : Z -> DataResponse)
    (segs : list Segment) : list Segment :=
  map (fun s => fst (fst (downloadSegmentData (respFor (ID s)) s []))) segs.

(** The part files when the workers are through with the segments. *)
Definition partsAfter (respFor : Z -> DataResponse) (segs : list Segment)
  : FS :=
  fun id =>
    match find (fun s => ID s =? id) segs with
    | Some s => Some (snd (fst (downloadSegmentData (respFor (ID s)) s [])))
    | None => None
    end.

(** Lines 175-184: one pass of the progress goroutine over the slice. *)
Definition currentDownloaded (segs : list Segment) : Z :=
  fold_left (fun acc s => Int64.add acc (Downloaded s)) segs 0.

(** The bytes of the file [origin] in the range of a segment; a range that
    reaches past the end of the file stops there. *)
Definition sliceOf (origin : Bytes) (s : Segment) : Bytes :=
  firstn (Z.to_nat (End_ s - Start s + 1)) (skipn (Z.to_nat (Start s)) origin).

(** The answer to the request of a fresh segment carries the bytes of its
    range: with status 206 or 200 a body that serves them, with another
    status nothing, the range holding no byte of the file. *)
Definition answersRange (origin : Bytes) (resp : DataResponse) (s : Segment)
  : Prop :=
  match resp with
  | DataRespError => False
  | DataResp status body =>
    if accepted status then serves (sliceOf origin s) body
    else sliceOf origin s = []
  end.

Lemma answersRange_result (origin : Bytes) (resp : DataResponse)
    (s : Segment) :
  answersRange origin resp s -> Downloaded s = 0 ->
  Z.of_nat (length origin) <= Int64.max_int ->
  let '(s', file, res) := downloadSegmentData resp s [] in
  ID s' = ID s /\ Start s' = Start s /\ End_ s' = End_ s /\
  Downloaded s' = Z.of_nat (length (sliceOf origin s)) /\
  file = sliceOf origin s.
Proof.
  intros Ha H0 Hlen. destruct resp as [| status body]; [ contradiction | ].
  simpl in *. unfold accepted in Ha.
  destruct (status =? StatusPartialContent), (status =? StatusOK); simpl in *;
    try (rewrite Ha; simpl; repeat split; exact H0).
  all: assert (Hs : Z.of_nat (length (sliceOf origin s)) <= Int64.max_int)
    by (unfold sliceOf; rewrite length_firstn, length_skipn; lia).
  all: pose proof (serves_readLoopData _ _ Ha s [] ltac:(lia) ltac:(lia)) as R.
  all: destruct (readLoopData body s []) as [[s' file] res].
  all: destruct R as (H1 & H2 & H3 & H4 & H5 & _).
  all: repeat split; try assumption; lia.
Qed.

Lemma find_by_ID (segs : list Segment) (s : Segment) :
  NoDup (map ID segs) -> In s segs ->
  find (fun x => ID x =? ID s) segs = Some s.
Proof.
  induction segs as [| a l IH]; intros Hnd Hin; [ contradiction | ].
  simpl in *. inversion Hnd as [| ? ? Hnot Hnd']; subst.
  destruct Hin as [-> | Hin].
  - now rewrite Z.eqb_refl.
  - destruct (ID a =? ID s) eqn:E; [ | apply IH; assumption ].
    apply Z.eqb_eq in E. exfalso. apply Hnot. rewrite E. apply in_map, Hin.
Qed.

Lemma find_none_ID (segs : list Segment) (id : Z) :
  existsb (fun s => ID s =? id) segs = false ->
  find (fun s => ID s =? id) segs = None.
Proof.
  induction segs as [| a l IH]; simpl; [ reflexivity | ].
  destruct (ID a =? id); simpl; [ discriminate | exact IH ].
Qed.

(** Adding up counters that stay within [int64] does not wrap. *)
Lemma currentDownloaded_plain (segs : list Segment) :
  Forall (fun s => 0 <= Downloaded s) segs ->
  sumZ (map Downloaded segs) <= Int64.max_int ->
  currentDownloaded segs = sumZ (map Downloaded segs).
Proof.
  unfold currentDownloaded, Int64.max_int.
  assert (G : forall acc, 0 <= acc ->
    Forall (fun s => 0 <= Downloaded s) segs ->
    acc + sumZ (map Downloaded segs) <= 2 ^ 63 - 1 ->
    fold_left (fun a s => Int64.add a (Downloaded s)) segs acc =
      acc + sumZ (map Downloaded segs)).
  { induction segs as [| s l IH]; intros acc Ha HF Hs; simpl in *; [ lia | ].
    inversion HF as [| ? ? H0 HF']; subst.
    assert (Hrest : 0 <= sumZ (map Downloaded l)).
    { clear - HF'. induction HF'; simpl; lia. }
    assert (E : Int64.add acc (Downloaded s) = acc + Downloaded s)
      by (unwrap; reflexivity).
    rewrite E, IH; try assumption; lia. }
  intros HF Hs. rewrite G; try assumption; lia.
Qed.

Lemma sorted_inOrder (l : list Z) :
  StronglySorted Z.lt l -> inOrder (fun a b => a <? b) l.
Proof.
  induction l as [| y r IH]; intros H; simpl; [ exact I | ].
  apply StronglySorted_inv in H. destruct H as [Hr Hy].
  destruct r as [| x r']; [ exact I | ].
  split; [ | apply IH, Hr ].
  inversion Hy; subst. apply Z.ltb_ge. lia.
Qed.

Lemma existsb_ID (l : list Segment) (id : Z) :
  existsb (fun s => ID s =? id) l = existsb (fun i => i =? id) (map ID l).
Proof. induction l as [| a l IH]; simpl; [ reflexivity | now rewrite IH ]. Qed.

(** Segments with ascending IDs and nothing downloaded, each answered with
    the bytes of its range: the counters add up to the number of bytes
    delivered, and the merge, if it runs, yields the slices of the file in
    the order of the slice and removes every part file. *)
Lemma served_parts (origin : Bytes) (respFor : Z -> DataResponse)
    (segs : list Segment) :
  Z.of_nat (length origin) <= Int64.max_int ->
  StronglySorted Z.lt (map ID segs) ->
  Forall (fun s => Downloaded s = 0) segs ->
  (forall s, In s segs -> answersRange origin (respFor (ID s)) s) ->
  sumZ (map (fun s => Z.of_nat (length (sliceOf origin s))) segs)
    <= Int64.max_int ->
  currentDownloaded (downloadAllData respFor segs) =
    sumZ (map (fun s => Z.of_nat (length (sliceOf origin s))) segs) /\
  let '(dest, fs', ok) :=
    mergeParts noFaults (partsAfter respFor segs)
               (downloadAllData respFor segs) in
  ok = true /\ dest = concat (map (sliceOf origin) segs) /\
  forall id, fs' id = None.
Proof.
  intros Hlen Hsorted Hzero Hans Hsum.
  destruct (ascending_ids segs Hsorted) as [_ Hnd].
  assert (F : forall s, In s segs ->
    ID (fst (fst (downloadSegmentData (respFor (ID s)) s []))) = ID s /\
    Downloaded (fst (fst (downloadSegmentData (respFor (ID s)) s []))) =
      Z.of_nat (length (sliceOf origin s)) /\
    snd (fst (downloadSegmentData (respFor (ID s)) s [])) = sliceOf origin s).
  { intros s Hs. rewrite Forall_forall in Hzero.
    pose proof (answersRange_result origin (respFor (ID s)) s
                  (Hans s Hs) (Hzero s Hs) Hlen) as R.
    destruct (downloadSegmentData (respFor (ID s)) s []) as [[s' file] res].
    simpl. tauto. }
  assert (HID : map ID (downloadAllData respFor segs) = map ID segs).
  { unfold downloadAllData. rewrite map_map. apply map_ext_in.
    intros s Hs. apply (F s Hs). }
  assert (HD : map Downloaded (downloadAllData respFor segs) =
               map (fun s => Z.of_nat (length (sliceOf origin s))) segs).
  { unfold downloadAllData. rewrite map_map. apply map_ext_in.
    intros s Hs. apply (F s Hs). }
  split.
  - rewrite currentDownloaded_plain; rewrite ?HD; try assumption.
    + reflexivity.
    + apply Forall_forall. intros s' Hs'.
      assert (Hin : In (Downloaded s') (map Downloaded (downloadAllData respFor segs)))
        by (apply in_map, Hs').
      rewrite HD in Hin. apply in_map_iff in Hin.
      destruct Hin as (s & <- & _). lia.
  - assert (Hm : mergeable noFaults (partsAfter respFor segs)
                   (downloadAllData respFor segs)).
    { split; [ now rewrite HID | ]. intros s' Hs'.
      unfold downloadAllData in Hs'. apply in_map_iff in Hs'.
      destruct Hs' as (s & <- & Hs). repeat split.
      destruct (F s Hs) as (E & _). rewrite E. unfold partsAfter.
      rewrite (find_by_ID segs s Hnd Hs). discriminate. }
    pose proof (mergeParts_noFaults _ _ Hm) as R.
    destruct (mergeParts noFaults _ _) as [[dest fs'] ok].
    destruct R as (Rok & Rdest & Rfs).
    split; [ exact Rok | ]. split.
    + rewrite Rdest, mergeOrder_ascending
        by (rewrite HID; apply sorted_inOrder, Hsorted).
      f_equal. unfold downloadAllData. rewrite map_map. apply map_ext_in.
      intros s Hs. destruct (F s Hs) as (E & _ & Ef).
      unfold partOf. rewrite E. unfold partsAfter.
      rewrite (find_by_ID segs s Hnd Hs). exact Ef.
    + intros id. rewrite Rfs. unfold removeParts.
      rewrite existsb_ID, HID, <- existsb_ID.
      destruct (existsb (fun s => ID s =? id) segs) eqn:E; [ reflexivity | ].
      unfold partsAfter. now rewrite (find_none_ID segs id E).
Qed.

Lemma firstn_skipn_join {A : Type} (l : list A) (a q : nat) :
  firstn q (skipn a l) ++ skipn (a + q) l = skipn a l.
Proof.
  rewrite (Nat.add_comm a q), <- skipn_skipn. apply firstn_skipn.
Qed.

Lemma sliceOf_inner (origin : Bytes) (i q : Z) :
  0 <= i -> 0 <= q ->
  sliceOf origin (mkSegment i (i * q) (i * q + q - 1) 0) =
    firstn (Z.to_nat q) (skipn (Z.to_nat i * Z.to_nat q) origin).
Proof.
  intros Hi Hq. unfold sliceOf. simpl.
  replace (i * q + q - 1 - i * q + 1) with q by lia.
  rewrite Z2Nat.inj_mul by lia. reflexivity.
Qed.

(** The slices of the seeded ranges, in slice order, make up the file. *)
Lemma seed_slices (origin : Bytes) :
  Z.of_nat (length origin) <= Int64.max_int ->
  concat (map (sliceOf origin) (seedSegments (Z.of_nat (length origin))))
    = origin.
Proof.
  intros Hlen. set (total := Z.of_nat (length origin)) in *.
  assert (Ht : 0 <= total <= Int64.max_int) by (unfold total; lia).
  assert (Hq : 0 <= total / 8 /\ 8 * (total / 8) <= total)
    by (split; [ apply Z.div_pos; lia | apply Z.mul_div_le; lia ]).
  rewrite seedSegments_unfold.
  rewrite !seedSegment_plain by (try exact Ht; lia).
  cbn [Z.eqb Pos.eqb map concat].
  rewrite !sliceOf_inner by lia.
  set (Q := Z.to_nat (total / 8)).
  assert (Hlast : sliceOf origin (mkSegment 7 (7 * (total / 8)) total 0) =
                  skipn (7 * Q) origin).
  { unfold sliceOf. cbn [Start End_].
    rewrite Z2Nat.inj_mul by lia. change (Z.to_nat 7) with 7%nat. fold Q.
    apply firstn_all2. rewrite length_skipn.
    assert (HQ : Z.of_nat Q = total / 8) by (unfold Q; lia).
    unfold total in *. lia. }
  rewrite Hlast, app_nil_r.
  change (Z.to_nat 0) with 0%nat. change (Z.to_nat 1) with 1%nat.
  change (Z.to_nat 2) with 2%nat. change (Z.to_nat 3) with 3%nat.
  change (Z.to_nat 4) with 4%nat. change (Z.to_nat 5) with 5%nat.
  change (Z.to_nat 6) with 6%nat.
  replace (7 * Q)%nat with (6 * Q + Q)%nat by lia.
  rewrite (firstn_skipn_join origin (6 * Q) Q).
  replace (6 * Q)%nat with (5 * Q + Q)%nat by lia.
  rewrite (firstn_skipn_join origin (5 * Q) Q).
  replace (5 * Q)%nat with (4 * Q + Q)%nat by lia.
  rewrite (firstn_skipn_join origin (4 * Q) Q).
  replace (4 * Q)%nat with (3 * Q + Q)%nat by lia.
  rewrite (firstn_skipn_join origin (3 * Q) Q).
  replace (3 * Q)%nat with (2 * Q + Q)%nat by lia.
  rewrite (firstn_skipn_join origin (2 * Q) Q).
  replace (2 * Q)%nat with (1 * Q + Q)%nat by lia.
  rewrite (firstn_skipn_join origin (1 * Q) Q).
  replace (1 * Q)%nat with (0 * Q + Q)%nat by lia.
  rewrite (firstn_skipn_join origin (0 * Q) Q).
  reflexivity.
Qed.

Lemma sumZ_lengths {A B : Type} (f : A -> list B) (l : list A) :
  sumZ (map (fun a => Z.of_nat (length (f a))) l) =
    Z.of_nat (length (concat (map f l))).
Proof.
  induction l as [| a l IH]; simpl; [ reflexivity | ].
  rewrite length_app, Nat2Z.inj_add, IH. reflexivity.
Qed.

(** A download whose eight seeded requests are all answered with the bytes
    of their ranges: the counters of the segments add up to the size of the
    file, which is what ends the progress goroutine and the Splitter
    (lines 186, 200), and the part files, merged in ascending ID as lines
    266-288 do it, give back the file byte for byte and leave no part file
    behind. *)
Theorem served_download_reproduces_file (origin : Bytes)
    (respFor : Z -> DataResponse) :
  Z.of_nat (length origin) <= Int64.max_int ->
  (forall s, In s (seedSegments (Z.of_nat (length origin))) ->
     answersRange origin (respFor (ID s)) s) ->
  currentDownloaded
    (downloadAllData respFor (seedSegments (Z.of_nat (length origin))))
    = Z.of_nat (length origin) /\
  let '(dest, fs', ok) :=
    mergeParts noFaults
      (partsAfter respFor (seedSegments (Z.of_nat (length origin))))
      (downloadAllData respFor (seedSegments (Z.of_nat (length origin)))) in
  ok = true /\ dest = origin /\ forall id, fs' id = None.
Proof.
  intros Hlen Hans.
  assert (Hsum : sumZ (map (fun s => Z.of_nat (length (sliceOf origin s)))
                           (seedSegments (Z.of_nat (length origin))))
                 = Z.of_nat (length origin))
    by (rewrite sumZ_lengths, seed_slices by exact Hlen; reflexivity).
  pose proof (served_parts origin respFor
                (seedSegments (Z.of_nat (length origin))) Hlen) as P.
  assert (Hsorted : StronglySorted Z.lt
                      (map ID (seedSegments (Z.of_nat (length origin))))).
  { change (map ID (seedSegments (Z.of_nat (length origin))))
      with [0; 1; 2; 3; 4; 5; 6; 7].
    repeat constructor. }
  assert (Hzero : Forall (fun s => Downloaded s = 0)
                    (seedSegments (Z.of_nat (length origin)))).
  { rewrite seedSegments_unfold. repeat constructor. }
  specialize (P Hsorted Hzero Hans ltac:(rewrite Hsum; exact Hlen)).
  destruct P as [Pd Pm]. split; [ now rewrite Pd, Hsum | ].
  destruct (mergeParts noFaults _ _) as [[dest fs'] ok].
  destruct Pm as (H1 & H2 & H3).
  rewrite seed_slices in H2 by exact Hlen. auto.
Qed.

(** A file of 20 bytes and a server that answers every seeded range with
    206 and the bytes asked for, in one read. *)
Definition demoFile : Bytes :=
  [ Byte.x61; Byte.x62; Byte.x63; Byte.x64; Byte.x65; Byte.x66; Byte.x67;
    Byte.x68; Byte.x69; Byte.x6a; Byte.x6b; Byte.x6c; Byte.x6d; Byte.x6e;
    Byte.x6f; Byte.x70; Byte.x71; Byte.x72; Byte.x73; Byte.x74 ].

Definition demoServer (id : Z) : DataResponse :=
  DataResp StatusPartialContent
    [mkData (sliceOf demoFile (seedSegment 20 id)) ReadEOF None].

Lemma served_download_reproduces_file_witness :
  currentDownloaded (downloadAllData demoServer (seedSegments 20)) = 20 /\
  let '(dest, fs', ok) :=
    mergeParts noFaults (partsAfter demoServer (seedSegments 20))
      (downloadAllData demoServer (seedSegments 20)) in
  ok = true /\ dest = demoFile /\ forall id, fs' id = None.
Proof.
  apply (served_download_reproduces_file demoFile demoServer).
  - vm_compute. discriminate.
  - intros s Hs. change (Z.of_nat (length demoFile)) with 20 in Hs.
    rewrite seedSegments_unfold in Hs. simpl In in Hs.
    repeat (destruct Hs as [<- | Hs]; [ apply serves_eof | ]).
    contradiction.
Defined.




(** The part of segment 1 is missing. *)
Definition onePart : FS :=
  fun id =>
    if id =? 0 then Some [Byte.x61; Byte.x62; Byte.x63; Byte.x64; Byte.x65]
    else None.

Lemma merge_failure_after_removals_witness :
  let '(dest', fs', ok) :=
    mergeLoop noFaults onePart
      ([mkSegment 0 0 4 5] ++ mkSegment 1 5 9 5 :: []) [] in
  ok = false /\
  (exists extra,
     dest' = [] ++ concat (map (partOf onePart) [mkSegment 0 0 4 5]) ++ extra) /\
  forall id, fs' id = removeParts [mkSegment 0 0 4 5] onePart id.
Proof.
  apply (merge_failure_after_removals noFaults onePart [mkSegment 0 0 4 5]
           (mkSegment 1 5 9 5) [] []).
  - split.
    + simpl. repeat constructor. simpl. tauto.
    + intros s [<- | []]. repeat split. discriminate.
  - left. reflexivity.
Defined.

(** ** The average speed of a progress line *)

Definition lineAvgSpeed (l : ProgressLine) : F64.float64 :=
  match l with
  | LineWithTotal _ _ _ avgSpeed _ => avgSpeed
  | LineNoTotal _ avgSpeed => avgSpeed
  end.

Lemma pushSample_nonempty (sample : Z) (window : list Z) :
  (1 <= length (pushSample sample window))%nat.
Proof.
  unfold pushSample. cbv zeta.
  destruct (windowCap <? length (window ++ [sample]))%nat eqn:E.
  - apply Nat.ltb_lt in E. unfold windowCap in E.
    destruct (window ++ [sample]); simpl in *; lia.
  - rewrite length_app. simpl. lia.
Qed.

Lemma averageSpeed_not_nan (window : list Z) :
  (1 <= length window <= 30)%nat -> averageSpeed window <> S754_nan.
Proof.
  intros [H1 H30]. unfold averageSpeed.
  destruct (0 <? length window)%nat eqn:E;
    [ | apply Nat.ltb_ge in E; lia ].
  destruct (of_int_pos_finite (Z.of_nat (length window))) as (m & e & F).
  { split; [ lia | ].
    apply Z.le_lt_trans with (m := 30); [ lia | reflexivity ]. }
  rewrite F. apply div_not_nan. apply of_int_not_nan.
Qed.

(** Over a window of at most 30 samples, a progress line is written after
    the window has taken the new sample, so the average is never taken over
    an empty window (the test [len > 0] of line 397 always holds) and the
    average speed printed is a number, never NaN. *)
Theorem average_speed_is_a_number (d d' : Downloader)
    (written total since : Z) (line : ProgressLine) :
  (length (bytesDownloadedPerSecond d) <= 30)%nat ->
  printProgress d written total since = (d', Some line) ->
  bytesDownloadedPerSecond d' <> [] /\ lineAvgSpeed line <> S754_nan.
Proof.
  intros Hw H. unfold printProgress in H. cbv zeta in H.
  destruct (F64.eqb (Seconds since) F64.zero); [ discriminate H | ].
  set (window := pushSample _ _) in H.
  assert (L1 : (1 <= length window)%nat) by apply pushSample_nonempty.
  assert (L30 : (length window <= 30)%nat).
  { pose proof (pushSample_length
                  (F64.to_int64
                     (F64.div (F64.div (F64.of_int written)
                                       (F64.of_int 1024))
                              (Seconds since)))
                  (bytesDownloadedPerSecond d)) as P.
    fold window in P. unfold windowCap in P. lia. }
  assert (A : averageSpeed window <> S754_nan)
    by (apply averageSpeed_not_nan; lia).
  injection H as <- <-. split.
  - simpl. intros E. rewrite E in L1. simpl in L1. lia.
  - destruct (0 <? total); exact A.
Qed.

Lemma average_speed_is_a_number_witness :
  (length (bytesDownloadedPerSecond (mkDownloader [3%Z; 5%Z])) <= 30)%nat /\
  exists d' line,
    printProgress (mkDownloader [3; 5]) 4096 8192 Second = (d', Some line)
    /\ bytesDownloadedPerSecond d' <> []
    /\ lineAvgSpeed line <> S754_nan.
Proof.
  split; [ simpl; lia | ].
  destruct (printProgress (mkDownloader [3; 5]) 4096 8192 Second)
    as [d' [line |]] eqn:E; [ | vm_compute in E; discriminate E ].
  exists d', line. split; [ reflexivity | ].
  apply (average_speed_is_a_number (mkDownloader [3; 5]) d' 4096 8192
           Second line); [ simpl; lia | exact E ].
Defined.

(** * The terminal front end: [RootModel.Update] (internal/tui/update.go)

    The types of the packages [messages], [textinput] and [progress] and
    the struct [DownloadModel] are declared outside this file: the text
    inputs, the progress bars and the constructor [NewDownloadModel] are
    parameters, the messages and the download carry the fields [Update]
    reads and writes. *)

Module TUI.
Import String.

Inductive UIState : Type :=
| DashboardState | DetailState | InputState
| OtherState (n : Z).   (* any further state of the front end *)

Section Update.

Variable TextInput : Type.          (* textinput.Model *)
Variable ProgressModel : Type.      (* progress.Model *)
Variable LibCmd : Type.             (* commands made by the libraries *)

(** The download card, with the fields [Update] reads and writes. *)
Record DownloadModel : Type := mkDownload {
  dID : Z;
  dURL : string;
  dFilename : string;
  dTotal : Z;
  dDownloaded : Z;
  dSpeed : F64.float64;
  dElapsed : Z;
  dConnections : Z;
  dProgress : ProgressModel;
  dDone : bool;
  dErr : option string
}.

Inductive Msg : Type :=
| DownloadStartedMsg (id : Z) (url filename : string) (total : Z)
| ProgressMsg (id downloaded : Z) (speed : F64.float64) (connections : Z)
| DownloadCompleteMsg (id elapsed : Z)
| DownloadErrorMsg (id : Z) (err : string)
| TickMsg
| WindowSizeMsg (width height : Z)
| KeyMsg (key : string)       (* msg.String() *)
| OtherMsg.

Inductive Cmd : Type :=
| ListenForActivity
| TickCmd
| Quit
| StartDownload (id : Z) (url path : string)
| FromLibrary (c : LibCmd).

(** What [Update] returns beside the model: [nil], one command, or
    [tea.Batch] of the commands collected. *)
Inductive Returned : Type :=
| Nil
| One (c : Cmd)
| Batch (cs : list Cmd).

Variable NewDownloadModel : Z -> string -> string -> Z -> DownloadModel.
Variable setValue : string -> TextInput -> TextInput.
Variable focus : TextInput -> TextInput.
Variable blur : TextInput -> TextInput.
Variable value : TextInput -> string.
Variable inputUpdate : Msg -> TextInput -> TextInput * LibCmd.
Variable setPercent : F64.float64 -> ProgressModel -> ProgressModel * LibCmd.
(** [progress.Update]; the model is [None] when the type assertion of the
    caller fails. *)
Variable progressUpdate :
  Msg -> ProgressModel -> option ProgressModel * LibCmd.

Record RootModel : Type := mkRoot {
  downloads : list DownloadModel;
  state : UIState;
  cursor : Z;
  focusedInput : Z;
  inputs : list TextInput;
  width : Z;
  height : Z
}.

(** [m.inputs[i] = f(m.inputs[i])]; an index out of range panics. *)
Definition onInput (i : Z) (f : TextInput -> TextInput) (l : list TextInput)
  : option (list TextInput) :=
  if (0 <=? i) && (i <? Z.of_nat (List.length l)) then
    Some (firstn (Z.to_nat i) l
            ++ match nth_error l (Z.to_nat i) with
               | Some x => [f x]
               | None => []
               end
            ++ skipn (S (Z.to_nat i)) l)
  else None.

Definition inputAt (i : Z) (l : list TextInput) : option TextInput :=
  if (0 <=? i) && (i <? Z.of_nat (List.length l)) then
    nth_error l (Z.to_nat i)
  else None.

(** [for _, d := range m.downloads { if d.ID == id { ...; break } }]: the
    first download with the ID is changed in place. *)
Fixpoint onFirst (id : Z) (f : DownloadModel -> DownloadModel)
    (l : list DownloadModel) : list DownloadModel :=
  match l with
  | [] => []
  | d :: r => if dID d =? id then f d :: r else d :: onFirst id f r
  end.

Definition findFirst (id : Z) (l : list DownloadModel)
  : option DownloadModel :=
  find (fun d => dID d =? id) l.

Definition withDownloads (ds : list DownloadModel) (m : RootModel)
  : RootModel :=
  mkRoot ds (state m) (cursor m) (focusedInput m) (inputs m) (width m)
         (height m).

Definition withState (s : UIState) (m : RootModel) : RootModel :=
  mkRoot (downloads m) s (cursor m) (focusedInput m) (inputs m) (width m)
         (height m).

Definition withCursor (c : Z) (m : RootModel) : RootModel :=
  mkRoot (downloads m) (state m) c (focusedInput m) (inputs m) (width m)
         (height m).

Definition withFocus (f : Z) (ins : list TextInput) (m : RootModel)
  : RootModel :=
  mkRoot (downloads m) (state m) (cursor m) f ins (width m) (height m).

(** The loop at the end of [Update]: every progress bar sees the message. *)
Definition propagate (msg : Msg) (ds : list DownloadModel)
  : list DownloadModel * list Cmd :=
  (map (fun d =>
          match fst (progressUpdate msg (dProgress d)) with
          | Some p =>
            mkDownload (dID d) (dURL d) (dFilename d) (dTotal d)
                       (dDownloaded d) (dSpeed d) (dElapsed d)
                       (dConnections d) p (dDone d) (dErr d)
          | None => d
          end) ds,
   map (fun d => FromLibrary (snd (progressUpdate msg (dProgress d)))) ds).

Definition finish (msg : Msg) (cmds : list Cmd) (m : RootModel)
  : option (RootModel * Returned) :=
  let '(ds, pcmds) := propagate msg (downloads m) in
  Some (withDownloads ds m, Batch (cmds ++ pcmds)).

(** Option with the notation of a sequence of statements. *)
Definition bindOpt {A B : Type} (a : option A) (k : A -> option B)
  : option B :=
  match a with Some x => k x | None => None end.

(** The inputs after [m.inputs[i].Blur(); i'...; m.inputs[i'].Focus()]. *)
Definition moveFocus (i i' : Z) (l : list TextInput)
  : option (list TextInput) :=
  bindOpt (onInput i blur l) (onInput i' focus).

Definition isKey (key k : string) : bool := String.eqb key k.

Definition started (url filename : string) (total : Z) (d : DownloadModel)
  : DownloadModel :=
  mkDownload (dID d) url filename total (dDownloaded d) (dSpeed d)
             (dElapsed d) (dConnections d) (dProgress d) (dDone d) (dErr d).

(** The percentage handed to the progress bar: [float64(d.Downloaded) /
    float64(d.Total)]. *)
Definition fraction (downloaded total : Z) : F64.float64 :=
  F64.div (F64.of_int downloaded) (F64.of_int total).

Definition progressed (since downloaded : Z) (speed : F64.float64)
    (connections : Z) (d : DownloadModel) : DownloadModel :=
  mkDownload (dID d) (dURL d) (dFilename d) (dTotal d) downloaded speed since
             connections
             (if 0 <? dTotal d
              then fst (setPercent (fraction downloaded (dTotal d))
                                   (dProgress d))
              else dProgress d)
             (dDone d) (dErr d).

Definition completed (elapsed : Z) (d : DownloadModel) : DownloadModel :=
  mkDownload (dID d) (dURL d) (dFilename d) (dTotal d) (dTotal d) (dSpeed d)
             elapsed (dConnections d) (dProgress d) true (dErr d).

Definition failed (err : string) (d : DownloadModel) : DownloadModel :=
  mkDownload (dID d) (dURL d) (dFilename d) (dTotal d) (dDownloaded d)
             (dSpeed d) (dElapsed d) (dConnections d) (dProgress d) true
             (Some err).

Definition len (m : RootModel) : Z := Z.of_nat (List.length (downloads m)).

(** A key in [DashboardState]. *)
Definition dashboardKey (msg : Msg) (key : string) (m : RootModel)
  : option (RootModel * Returned) :=
  if isKey key "q" || isKey key "ctrl+c" then Some (m, One Quit)
  else if isKey key "g" then
    bindOpt (onInput 0 (fun x => focus (setValue EmptyString x)) (inputs m))
            (fun i1 =>
    bindOpt (onInput 1 (fun x => blur (setValue "." x)) i1) (fun i2 =>
    bindOpt (onInput 2 (fun x => blur (setValue EmptyString x)) i2)
            (fun i3 =>
    Some (withState InputState (withFocus 0 i3 m), Nil))))
  else
    let m1 :=
      if isKey key "up" || isKey key "k" then
        if 0 <? cursor m then withCursor (cursor m - 1) m else m
      else m in
    let m2 :=
      if isKey key "down" || isKey key "j" then
        if cursor m1 <? len m1 - 1 then withCursor (cursor m1 + 1) m1 else m1
      else m1 in
    let m3 :=
      if isKey key "enter" then
        if 0 <? len m2 then withState DetailState m2 else m2
      else m2 in
    finish msg [] m3.

(** A key in [DetailState]. *)
Definition detailKey (msg : Msg) (key : string) (m : RootModel)
  : option (RootModel * Returned) :=
  if isKey key "esc" || isKey key "q" || isKey key "enter" then
    Some (withState DashboardState m, Nil)
  else finish msg [] m.

(** A key in [InputState]. *)
Definition inputKey (msg : Msg) (key : string) (m : RootModel)
  : option (RootModel * Returned) :=
  let f := focusedInput m in
  if isKey key "esc" then Some (withState DashboardState m, Nil)
  else if isKey key "enter" then
    if f <? 2 then
      bindOpt (moveFocus f (f + 1) (inputs m)) (fun ins =>
      Some (withFocus (f + 1) ins m, Nil))
    else
      bindOpt (inputAt 0 (inputs m)) (fun in0 =>
      let url := value in0 in
      if String.eqb url EmptyString then
        bindOpt (onInput 0 focus (inputs m)) (fun i1 =>
        bindOpt (onInput 1 blur i1) (fun i2 =>
        bindOpt (onInput 2 blur i2) (fun i3 =>
        Some (withFocus 0 i3 m, Nil))))
      else
        bindOpt (inputAt 1 (inputs m)) (fun in1 =>
        let path := if String.eqb (value in1) EmptyString
                    then "."%string
                    else value in1 in
        let nextID := len m + 1 in
        Some (withState DashboardState
                (withDownloads
                   (downloads m
                      ++ [NewDownloadModel nextID url "Resolving..." 0]) m),
              One (StartDownload nextID url path))))
  else if isKey key "up" && (0 <? f) then
    bindOpt (moveFocus f (f - 1) (inputs m)) (fun ins =>
    Some (withFocus (f - 1) ins m, Nil))
  else if isKey key "down" && (f <? 2) then
    bindOpt (moveFocus f (f + 1) (inputs m)) (fun ins =>
    Some (withFocus (f + 1) ins m, Nil))
  else
    bindOpt (inputAt f (inputs m)) (fun x =>
    bindOpt (onInput f (fun _ => fst (inputUpdate msg x)) (inputs m))
            (fun ins =>
    Some (withFocus f ins m, One (FromLibrary (snd (inputUpdate msg x)))))).

(** [RootModel.Update]; [since] is the value of [time.Since(d.StartTime)]
    for the download a [ProgressMsg] is for.  [None] is a panic on an index
    out of range. *)
Definition Update (since : Z) (msg : Msg) (m : RootModel)
  : option (RootModel * Returned) :=
  match msg with
  | DownloadStartedMsg id url filename total =>
    let ds :=
      match findFirst id (downloads m) with
      | Some _ => onFirst id (started url filename total) (downloads m)
      | None => downloads m ++ [NewDownloadModel id url filename total]
      end in
    finish msg [ListenForActivity] (withDownloads ds m)
  | ProgressMsg id downloaded speed connections =>
    let cmds :=
      match findFirst id (downloads m) with
      | Some d =>
        if 0 <? dTotal d
        then [FromLibrary (snd (setPercent (fraction downloaded (dTotal d))
                                           (dProgress d)))]
        else []
      | None => []
      end in
    finish msg (cmds ++ [ListenForActivity])
      (withDownloads
         (onFirst id (progressed since downloaded speed connections)
                  (downloads m)) m)
  | DownloadCompleteMsg id elapsed =>
    finish msg [ListenForActivity]
      (withDownloads (onFirst id (completed elapsed) (downloads m)) m)
  | DownloadErrorMsg id err =>
    finish msg [ListenForActivity]
      (withDownloads (onFirst id (failed err) (downloads m)) m)
  | TickMsg => finish msg [TickCmd] m
  | WindowSizeMsg w h =>
    Some (mkRoot (downloads m) (state m) (cursor m) (focusedInput m)
                 (inputs m) w h, Nil)
  | KeyMsg key =>
    match state m with
    | DashboardState => dashboardKey msg key m
    | DetailState => detailKey msg key m
    | InputState => inputKey msg key m
    | OtherState _ => finish msg [] m
    end
  | OtherMsg => finish msg [] m
  end.

(** What [Update] keeps true of the model: three inputs, the focus on one of
    them, the cursor on a download (or at 0), and the detail view only with
    a download to show. *)
Definition modelInv (m : RootModel) : Prop :=
  List.length (inputs m) = 3%nat /\
  0 <= focusedInput m <= 2 /\
  0 <= cursor m /\ (cursor m < len m \/ cursor m = 0) /\
  (state m = DetailState -> downloads m <> []).

(** The list [l'] is [l] with every download in its place, changed at most
    within [R], and at most one more download at the end. *)
Definition growsBy (R : DownloadModel -> DownloadModel -> Prop)
    (l l' : list DownloadModel) : Prop :=
  exists kept new,
    l' = kept ++ new /\ Forall2 R l kept /\ (List.length new <= 1)%nat.

(** The ID stays, and a download that is done stays done. *)
Definition keeps (d d' : DownloadModel) : Prop :=
  dID d' = dID d /\ (dDone d = true -> dDone d' = true).

(** Every field but the progress bar is as it was. *)
Definition sameCard (d d' : DownloadModel) : Prop :=
  dID d' = dID d /\ dURL d' = dURL d /\ dFilename d' = dFilename d /\
  dTotal d' = dTotal d /\ dDownloaded d' = dDownloaded d /\
  dSpeed d' = dSpeed d /\ dElapsed d' = dElapsed d /\
  dConnections d' = dConnections d /\ dDone d' = dDone d /\
  dErr d' = dErr d.

(** The [DownloadID] of a message of the engine. *)
Definition addressed (msg : Msg) : option Z :=
  match msg with
  | DownloadStartedMsg id _ _ _ | ProgressMsg id _ _ _
  | DownloadCompleteMsg id _ | DownloadErrorMsg id _ => Some id
  | _ => None
  end.

(** A download the message is not for is left as it was. *)
Definition untouched (msg : Msg) (d d' : DownloadModel) : Prop :=
  addressed msg <> Some (dID d) -> sameCard d d'.

(** The card [d] with the progress bar [p]. *)
Definition withProgress (p : ProgressModel) (d : DownloadModel)
  : DownloadModel :=
  mkDownload (dID d) (dURL d) (dFilename d) (dTotal d) (dDownloaded d)
             (dSpeed d) (dElapsed d) (dConnections d) p (dDone d) (dErr d).

(** The downloads carry the IDs 1, 2, ... in the order of the list. *)
Definition idsInOrder (m : RootModel) : Prop :=
  map dID (downloads m)
  = map Z.of_nat (seq 1 (List.length (downloads m))).

(** ** Properties of [Update] *)

Lemma onInput_some (i : Z) (f : TextInput -> TextInput) (l : list TextInput) :
  List.length l = 3%nat -> 0 <= i <= 2 ->
  exists l', onInput i f l = Some l' /\ List.length l' = 3%nat.
Proof.
  intros Hl Hi. destruct l as [| a [| b [| c [| d l]]]]; try discriminate.
  unfold onInput. simpl List.length.
  replace ((0 <=? i) && (i <? Z.of_nat 3)) with true
    by (symmetry; apply andb_true_iff; split;
        [ apply Z.leb_le | apply Z.ltb_lt ]; lia).
  assert (Hc : i = 0 \/ i = 1 \/ i = 2) by lia.
  destruct Hc as [-> | [-> | ->]]; eexists; split; reflexivity.
Qed.

Lemma inputAt_some (i : Z) (l : list TextInput) :
  List.length l = 3%nat -> 0 <= i <= 2 -> exists x, inputAt i l = Some x.
Proof.
  intros Hl Hi. destruct l as [| a [| b [| c [| d l]]]]; try discriminate.
  unfold inputAt. simpl List.length.
  replace ((0 <=? i) && (i <? Z.of_nat 3)) with true
    by (symmetry; apply andb_true_iff; split;
        [ apply Z.leb_le | apply Z.ltb_lt ]; lia).
  assert (Hc : i = 0 \/ i = 1 \/ i = 2) by lia.
  destruct Hc as [-> | [-> | ->]]; eexists; reflexivity.
Qed.

Lemma moveFocus_some (i i' : Z) (l : list TextInput) :
  List.length l = 3%nat -> 0 <= i <= 2 -> 0 <= i' <= 2 ->
  exists l', moveFocus i i' l = Some l' /\ List.length l' = 3%nat.
Proof.
  intros Hl Hi Hi'. unfold moveFocus.
  destruct (onInput_some i blur l Hl Hi) as (l1 & E1 & L1).
  rewrite E1. simpl. apply onInput_some; assumption.
Qed.

Lemma onFirst_ids (id : Z) (f : DownloadModel -> DownloadModel)
    (l : list DownloadModel) :
  (forall d, dID (f d) = dID d) ->
  map dID (onFirst id f l) = map dID l.
Proof.
  intros Hf. induction l as [| d r IH]; simpl; [ reflexivity | ].
  destruct (dID d =? id); simpl; [ now rewrite Hf | now rewrite IH ].
Qed.

Lemma propagate_ids (msg : Msg) (l : list DownloadModel) :
  map dID (fst (propagate msg l)) = map dID l.
Proof.
  unfold propagate. simpl. rewrite map_map. apply map_ext. intros d.
  destruct (fst (progressUpdate msg (dProgress d))); reflexivity.
Qed.

Lemma ids_length (l l' : list DownloadModel) :
  map dID l = map dID l' -> List.length l = List.length l'.
Proof.
  intros H. rewrite <- (length_map dID l), H. apply length_map.
Qed.

Lemma onFirst_length (id : Z) (f : DownloadModel -> DownloadModel)
    (l : list DownloadModel) :
  List.length (onFirst id f l) = List.length l.
Proof.
  induction l as [| d r IH]; simpl; [ reflexivity | ].
  destruct (dID d =? id); simpl; [ reflexivity | now rewrite IH ].
Qed.

Lemma finish_some (msg : Msg) (cmds : list Cmd) (m : RootModel) :
  finish msg cmds m =
  Some (withDownloads (fst (propagate msg (downloads m))) m,
        Batch (cmds ++ snd (propagate msg (downloads m)))).
Proof. reflexivity. Qed.

Lemma modelInv_downloads (m : RootModel) (ds : list DownloadModel) :
  modelInv m -> (List.length (downloads m) <= List.length ds)%nat ->
  modelInv (withDownloads ds m).
Proof.
  unfold modelInv, len. simpl. intros (H1 & H2 & H3 & H4 & H5) L.
  split; [ assumption | ]. split; [ assumption | ]. split; [ assumption | ].
  split.
  - destruct H4 as [H4 | H4]; [ left; lia | right; assumption ].
  - intros Hs E. apply (H5 Hs). subst ds.
    destruct (downloads m); [ reflexivity | simpl in L; lia ].
Qed.

Lemma modelInv_state (s : UIState) (m : RootModel) :
  modelInv m -> (s = DetailState -> downloads m <> []) ->
  modelInv (withState s m).
Proof.
  unfold modelInv, len. simpl. intros (H1 & H2 & H3 & H4 & H5) L.
  repeat (split; [ assumption | ]). assumption.
Qed.

Lemma modelInv_focus (f : Z) (ins : list TextInput) (m : RootModel) :
  modelInv m -> List.length ins = 3%nat -> 0 <= f <= 2 ->
  modelInv (withFocus f ins m).
Proof.
  unfold modelInv, len. simpl. intros (H1 & H2 & H3 & H4 & H5) L F.
  repeat (split; [ assumption | ]). assumption.
Qed.

Lemma modelInv_cursor (c : Z) (m : RootModel) :
  modelInv m -> 0 <= c -> c < len m \/ c = 0 ->
  modelInv (withCursor c m).
Proof.
  unfold modelInv, len. simpl. intros (H1 & H2 & H3 & H4 & H5) L F.
  repeat (split; [ assumption | ]). assumption.
Qed.

Lemma finish_inv (msg : Msg) (cmds : list Cmd) (m : RootModel) :
  modelInv m ->
  exists m' r, finish msg cmds m = Some (m', r) /\ modelInv m'.
Proof.
  intros I. rewrite finish_some. eexists. eexists.
  split; [ reflexivity | ]. apply modelInv_downloads; [ assumption | ].
  unfold propagate. simpl. now rewrite length_map.
Qed.

Lemma moveFocus_inv (f' : Z) (m : RootModel) :
  modelInv m -> 0 <= f' <= 2 ->
  exists m' r,
    bindOpt (moveFocus (focusedInput m) f' (inputs m))
            (fun ins => Some (withFocus f' ins m, Nil)) = Some (m', r)
    /\ modelInv m'.
Proof.
  intros I F. pose proof I as (H1 & H2 & _).
  destruct (moveFocus_some (focusedInput m) f' (inputs m) H1 H2 F)
    as (l' & E & L).
  rewrite E. simpl. eexists. eexists. split; [ reflexivity | ].
  apply modelInv_focus; assumption.
Qed.

Lemma threeInputs_inv (f0 f1 f2 : TextInput -> TextInput)
    (k : list TextInput -> RootModel) (m : RootModel) :
  List.length (inputs m) = 3%nat ->
  (forall ins, List.length ins = 3%nat -> modelInv (k ins)) ->
  exists m' r,
    bindOpt (onInput 0 f0 (inputs m)) (fun i1 =>
    bindOpt (onInput 1 f1 i1) (fun i2 =>
    bindOpt (onInput 2 f2 i2) (fun i3 => Some (k i3, Nil)))) = Some (m', r)
    /\ modelInv m'.
Proof.
  intros H1 K.
  destruct (onInput_some 0 f0 (inputs m) H1) as (i1 & E1 & L1); [ lia | ].
  destruct (onInput_some 1 f1 i1 L1) as (i2 & E2 & L2); [ lia | ].
  destruct (onInput_some 2 f2 i2 L2) as (i3 & E3 & L3); [ lia | ].
  rewrite E1. simpl. rewrite E2. simpl. rewrite E3. simpl.
  eexists. eexists. split; [ reflexivity | ]. apply K. assumption.
Qed.

Lemma len_pos_nonempty (m : RootModel) : 0 < len m -> downloads m <> [].
Proof.
  unfold len. intros H E. rewrite E in H. simpl in H. lia.
Qed.

Lemma dashboardKey_inv (msg : Msg) (key : string) (m : RootModel) :
  modelInv m ->
  exists m' r, dashboardKey msg key m = Some (m', r) /\ modelInv m'.
Proof.
  intros I. unfold dashboardKey.
  destruct (isKey key "q" || isKey key "ctrl+c").
  { exists m, (One Quit). split; [ reflexivity | assumption ]. }
  destruct (isKey key "g").
  { apply threeInputs_inv; [ apply I | ]. intros ins L.
    apply modelInv_state; [ | discriminate ].
    apply modelInv_focus; [ assumption | assumption | lia ]. }
  set (m1 := if isKey key "up" || isKey key "k" then _ else _).
  assert (I1 : modelInv m1).
  { subst m1. destruct (isKey key "up" || isKey key "k"); [ | assumption ].
    destruct (0 <? cursor m) eqn:E; [ | assumption ].
    apply Z.ltb_lt in E. pose proof I as (_ & _ & H3 & H4 & _).
    apply modelInv_cursor; [ assumption | lia | left; lia ]. }
  clearbody m1.
  set (m2 := if isKey key "down" || isKey key "j" then _ else _).
  assert (I2 : modelInv m2).
  { subst m2. destruct (isKey key "down" || isKey key "j"); [ | assumption ].
    destruct (cursor m1 <? len m1 - 1) eqn:E; [ | assumption ].
    apply Z.ltb_lt in E. pose proof I1 as (_ & _ & H3 & H4 & _).
    apply modelInv_cursor; [ assumption | lia | left; lia ]. }
  clearbody m2.
  set (m3 := if isKey key "enter" then _ else _).
  assert (I3 : modelInv m3).
  { subst m3. destruct (isKey key "enter"); [ | assumption ].
    destruct (0 <? len m2) eqn:E; [ | assumption ].
    apply Z.ltb_lt in E.
    apply modelInv_state; [ assumption | ].
    intros _. apply len_pos_nonempty. assumption. }
  apply finish_inv. assumption.
Qed.

Lemma inputKey_inv (msg : Msg) (key : string) (m : RootModel) :
  modelInv m ->
  exists m' r, inputKey msg key m = Some (m', r) /\ modelInv m'.
Proof.
  intros I. pose proof I as (H1 & H2 & _). unfold inputKey. cbv zeta.
  destruct (isKey key "esc").
  { eexists. eexists. split; [ reflexivity | ].
    apply modelInv_state; [ assumption | discriminate ]. }
  destruct (isKey key "enter").
  { destruct (focusedInput m <? 2) eqn:E.
    - apply Z.ltb_lt in E. apply moveFocus_inv; [ assumption | lia ].
    - destruct (inputAt_some 0 (inputs m) H1) as (in0 & E0); [ lia | ].
      rewrite E0. simpl.
      destruct (String.eqb (value in0) EmptyString).
      + apply threeInputs_inv; [ assumption | ]. intros ins L.
        apply modelInv_focus; [ assumption | assumption | lia ].
      + destruct (inputAt_some 1 (inputs m) H1) as (in1 & E1); [ lia | ].
        rewrite E1. simpl. eexists. eexists. split; [ reflexivity | ].
        apply modelInv_state; [ | discriminate ].
        apply modelInv_downloads; [ assumption | ].
        rewrite length_app. simpl. lia. }
  destruct (isKey key "up" && (0 <? focusedInput m)) eqn:U.
  { apply andb_true_iff in U. destruct U as [_ U]. apply Z.ltb_lt in U.
    apply moveFocus_inv; [ assumption | lia ]. }
  destruct (isKey key "down" && (focusedInput m <? 2)) eqn:D.
  { apply andb_true_iff in D. destruct D as [_ D]. apply Z.ltb_lt in D.
    apply moveFocus_inv; [ assumption | lia ]. }
  destruct (inputAt_some (focusedInput m) (inputs m) H1 H2) as (x & Ex).
  rewrite Ex. simpl.
  destruct (onInput_some (focusedInput m)
              (fun _ => fst (inputUpdate msg x)) (inputs m) H1 H2)
    as (ins & Ei & L).
  rewrite Ei. simpl. eexists. eexists. split; [ reflexivity | ].
  apply modelInv_focus; assumption.
Qed.

(** [Update] never runs off the three inputs, and what it returns has again
    three inputs, the focus on one of them, the cursor on a download (or at
    0 when there is none), and the detail view only with a download to
    show. *)
Theorem update_keeps_model (since : Z) (msg : Msg) (m : RootModel) :
  modelInv m ->
  exists m' r, Update since msg m = Some (m', r) /\ modelInv m'.
Proof.
  intros I.
  destruct msg as [id url fn total | id dl sp cn | id el | id err
                   | | w h | key | ]; unfold Update.
  - apply finish_inv. apply modelInv_downloads; [ assumption | ].
    destruct (findFirst id (downloads m)).
    + rewrite onFirst_length. lia.
    + rewrite length_app. simpl. lia.
  - apply finish_inv. apply modelInv_downloads; [ assumption | ].
    rewrite onFirst_length. lia.
  - apply finish_inv. apply modelInv_downloads; [ assumption | ].
    rewrite onFirst_length. lia.
  - apply finish_inv. apply modelInv_downloads; [ assumption | ].
    rewrite onFirst_length. lia.
  - apply finish_inv. assumption.
  - eexists. eexists. split; [ reflexivity | ]. exact I.
  - destruct (state m) eqn:S.
    + apply dashboardKey_inv. assumption.
    + unfold detailKey.
      destruct (isKey key "esc" || isKey key "q" || isKey key "enter").
      * eexists. eexists. split; [ reflexivity | ].
        apply modelInv_state; [ assumption | discriminate ].
      * apply finish_inv. assumption.
    + apply inputKey_inv. assumption.
    + apply finish_inv. assumption.
  - apply finish_inv. assumption.
Qed.

Ltac bind_inv H :=
  repeat match type of H with
         | bindOpt ?a _ = Some _ =>
           let E := fresh "E" in
           destruct a eqn:E; [ cbn [bindOpt] in H | discriminate H ]
         end.

Section GrowsBy.

Variable R : DownloadModel -> DownloadModel -> Prop.
Hypothesis R_refl : forall d, R d d.
Hypothesis R_progress : forall d d' p, R d d' -> R d (withProgress p d').

Lemma R_all_refl (l : list DownloadModel) : Forall2 R l l.
Proof. induction l; constructor; [ apply R_refl | assumption ]. Qed.

Lemma growsBy_refl (l : list DownloadModel) : growsBy R l l.
Proof.
  exists l, []. rewrite app_nil_r.
  split; [ reflexivity | ]. split; [ apply R_all_refl | simpl; lia ].
Qed.

Lemma growsBy_one (l : list DownloadModel) (d : DownloadModel) :
  growsBy R l (l ++ [d]).
Proof.
  exists l, [d].
  split; [ reflexivity | ]. split; [ apply R_all_refl | simpl; lia ].
Qed.

Lemma growsBy_onFirst (id : Z) (f : DownloadModel -> DownloadModel)
    (l : list DownloadModel) :
  (forall d, dID d = id -> R d (f d)) -> growsBy R l (onFirst id f l).
Proof.
  intros Hf. exists (onFirst id f l), []. rewrite app_nil_r.
  split; [ reflexivity | ]. split; [ | simpl; lia ].
  induction l as [| d r IH]; simpl; [ constructor | ].
  destruct (dID d =? id) eqn:E; constructor;
    auto using R_refl, R_all_refl.
  apply Hf. apply Z.eqb_eq. assumption.
Qed.

Lemma growsBy_propagate (msg : Msg) (l l' : list DownloadModel) :
  growsBy R l l' -> growsBy R l (fst (propagate msg l')).
Proof.
  intros (kept & new & -> & K & N). unfold propagate. simpl.
  rewrite map_app. eexists. eexists. split; [ reflexivity | ].
  split; [ | now rewrite length_map ].
  clear N. induction K as [| d d' l kept K1 K IH]; simpl;
    constructor; [ | assumption ].
  destruct (fst (progressUpdate msg (dProgress d'))) as [p |];
    [ apply (R_progress d d' p) | ]; assumption.
Qed.

Lemma finish_growsBy (msg : Msg) (cmds : list Cmd) (l : list DownloadModel)
    (m m' : RootModel) (r : Returned) :
  growsBy R l (downloads m) ->
  finish msg cmds m = Some (m', r) -> growsBy R l (downloads m').
Proof.
  intros G H. rewrite finish_some in H. injection H as <- _. simpl.
  apply growsBy_propagate. assumption.
Qed.

(** What [Update] does to the list of downloads, for any [R] that holds of
    what the message does to the download it is for. *)
Lemma Update_growsBy (since : Z) (msg : Msg) (m m' : RootModel)
    (r : Returned) :
  (forall d,
      match msg with
      | DownloadStartedMsg id url fn total =>
        dID d = id -> R d (started url fn total d)
      | ProgressMsg id dl sp cn =>
        dID d = id -> R d (progressed since dl sp cn d)
      | DownloadCompleteMsg id el => dID d = id -> R d (completed el d)
      | DownloadErrorMsg id err => dID d = id -> R d (failed err d)
      | _ => True
      end) ->
  Update since msg m = Some (m', r) ->
  growsBy R (downloads m) (downloads m').
Proof.
  intros Hf H.
  destruct msg as [id url fn total | id dl sp cn | id el | id err
                   | | w h | key | ]; unfold Update in H.
  - refine (finish_growsBy _ _ _ _ _ _ _ H). simpl.
    destruct (findFirst id (downloads m)).
    + apply growsBy_onFirst. assumption.
    + apply growsBy_one.
  - refine (finish_growsBy _ _ _ _ _ _ _ H). simpl.
    apply growsBy_onFirst. assumption.
  - refine (finish_growsBy _ _ _ _ _ _ _ H). simpl.
    apply growsBy_onFirst. assumption.
  - refine (finish_growsBy _ _ _ _ _ _ _ H). simpl.
    apply growsBy_onFirst. assumption.
  - refine (finish_growsBy _ _ _ _ _ _ _ H). apply growsBy_refl.
  - injection H as <- _. apply growsBy_refl.
  - destruct (state m).
    + unfold dashboardKey in H.
      destruct (isKey key "q" || isKey key "ctrl+c").
      { injection H as <- _. apply growsBy_refl. }
      destruct (isKey key "g").
      { bind_inv H. injection H as <- _. apply growsBy_refl. }
      refine (finish_growsBy _ _ _ _ _ _ _ H).
      repeat match goal with
             | |- context [if ?b then _ else _] => destruct b
             end; apply growsBy_refl.
    + unfold detailKey in H.
      destruct (isKey key "esc" || isKey key "q" || isKey key "enter").
      * injection H as <- _. apply growsBy_refl.
      * refine (finish_growsBy _ _ _ _ _ _ _ H). apply growsBy_refl.
    + unfold inputKey in H. cbv zeta in H. unfold moveFocus in H.
      repeat match type of H with
             | (if ?b then _ else _) = Some _ => destruct b
             | bindOpt ?a _ = Some _ =>
               let E := fresh "E" in
               destruct a eqn:E; [ cbn [bindOpt] in H | discriminate H ]
             end;
        injection H as <- _; simpl;
        first [ apply growsBy_refl | apply growsBy_one ].
    + refine (finish_growsBy _ _ _ _ _ _ _ H). apply growsBy_refl.
  - refine (finish_growsBy _ _ _ _ _ _ _ H). apply growsBy_refl.
Qed.

End GrowsBy.

(** Whatever the message, [Update] removes no download and moves none: the
    downloads of the model come back in their places with their IDs, one
    that was done is still done, and at most one download is added, at the
    end. *)
Theorem downloads_are_kept (since : Z) (msg : Msg) (m m' : RootModel)
    (r : Returned) :
  Update since msg m = Some (m', r) ->
  growsBy keeps (downloads m) (downloads m').
Proof.
  apply Update_growsBy.
  - intros d. split; [ reflexivity | tauto ].
  - intros d d' p K. exact K.
  - intros d. destruct msg; try exact I; intros _; split; simpl; auto.
Qed.

(** A message of the engine changes no download but the one it is for, and
    a key, a tick or a change of the window size changes none: apart from
    its progress bar, every other download comes back as it was. *)
Theorem other_downloads_untouched (since : Z) (msg : Msg) (m m' : RootModel)
    (r : Returned) :
  Update since msg m = Some (m', r) ->
  growsBy (untouched msg) (downloads m) (downloads m').
Proof.
  apply Update_growsBy.
  - intros d _. repeat split.
  - intros d d' p K A. exact (K A).
  - intros d. destruct msg; try exact I; intros <- A; exfalso; apply A;
      reflexivity.
Qed.

Lemma isKey_eq (key k : string) : isKey key k = true -> key = k.
Proof. apply String.eqb_eq. Qed.

Ltac key_inv H :=
  repeat match type of H with
         | (if ?b then _ else _) = Some _ =>
           let B := fresh "B" in destruct b eqn:B
         | bindOpt ?a _ = Some _ =>
           let E := fresh "E" in
           destruct a eqn:E; [ cbn [bindOpt] in H | discriminate H ]
         | finish _ _ _ = Some _ => rewrite finish_some in H
         end.

(** [Update] returns [tea.Quit] for the keys q and ctrl+c on the dashboard,
    with the model as it was, and for nothing else: no other message, no
    other key and no other state quits the program. *)
Theorem quit_only_from_dashboard (since : Z) (msg : Msg) (m m' : RootModel) :
  Update since msg m = Some (m', One Quit) <->
  m' = m /\ state m = DashboardState /\
  (msg = KeyMsg "q" \/ msg = KeyMsg "ctrl+c").
Proof.
  split.
  - intros H.
    destruct msg as [id url fn total | id dl sp cn | id el | id err
                     | | w h | key | ]; unfold Update in H;
      try (rewrite finish_some in H; discriminate H);
      try discriminate H.
    destruct (state m) eqn:S.
    + unfold dashboardKey in H.
      destruct (isKey key "q") eqn:Q.
      { injection H as <-. apply isKey_eq in Q. subst key. auto. }
      destruct (isKey key "ctrl+c") eqn:C.
      { injection H as <-. apply isKey_eq in C. subst key. auto. }
      simpl in H. key_inv H; discriminate H.
    + unfold detailKey in H. key_inv H; discriminate H.
    + unfold inputKey in H. cbv zeta in H. unfold moveFocus in H.
      key_inv H; discriminate H.
    + rewrite finish_some in H. discriminate H.
  - intros (-> & S & [-> | ->]); unfold Update; rewrite S; reflexivity.
Qed.

(** A download is started only by enter on the last input of the input
    form, with a URL that is not empty; the path handed to the download is
    the one typed, or "." when none was typed, so never empty; the download
    gets the ID [len(m.downloads) + 1], its card is added at the end of the
    list, and the view goes back to the dashboard. *)
Theorem start_needs_a_url (since : Z) (msg : Msg) (m m' : RootModel)
    (id : Z) (url path : string) :
  Update since msg m = Some (m', One (StartDownload id url path)) ->
  msg = KeyMsg "enter" /\ state m = InputState /\ 2 <= focusedInput m /\
  option_map value (inputAt 0 (inputs m)) = Some url /\
  url <> EmptyString /\ path <> EmptyString /\
  id = len m + 1 /\
  downloads m' = downloads m ++ [NewDownloadModel id url "Resolving..." 0] /\
  state m' = DashboardState.
Proof.
  intros H.
  destruct msg as [i u fn total | i dl sp cn | i el | i err
                   | | w h | key | ]; unfold Update in H;
    try (rewrite finish_some in H; discriminate H);
    try discriminate H.
  destruct (state m) eqn:S.
  - unfold dashboardKey in H. key_inv H; discriminate H.
  - unfold detailKey in H. key_inv H; discriminate H.
  - unfold inputKey in H. cbv zeta in H. unfold moveFocus in H.
    destruct (isKey key "esc"); [ discriminate H | ].
    destruct (isKey key "enter") eqn:K.
    + apply isKey_eq in K. subst key.
      destruct (focusedInput m <? 2) eqn:F.
      { key_inv H; discriminate H. }
      apply Z.ltb_ge in F.
      destruct (inputAt 0 (inputs m)) as [in0 |] eqn:E0;
        [ cbn [bindOpt] in H | discriminate H ].
      destruct (String.eqb (value in0) EmptyString) eqn:U.
      { key_inv H; discriminate H. }
      destruct (inputAt 1 (inputs m)) as [in1 |] eqn:E1;
        [ cbn [bindOpt] in H | discriminate H ].
      injection H as <- <- <- <-.
      apply String.eqb_neq in U.
      repeat split; try assumption; try reflexivity; try discriminate.
      destruct (String.eqb (value in1) EmptyString) eqn:P;
        [ discriminate | apply String.eqb_neq in P; assumption ].
    + key_inv H; discriminate H.
  - rewrite finish_some in H. discriminate H.
Qed.

Lemma idsInOrder_ids (m m' : RootModel) :
  idsInOrder m -> map dID (downloads m') = map dID (downloads m) ->
  idsInOrder m'.
Proof.
  unfold idsInOrder. intros I E.
  rewrite <- (length_map dID (downloads m')), E, length_map. congruence.
Qed.

Lemma idsInOrder_next (m m' : RootModel) (d : DownloadModel) :
  idsInOrder m -> dID d = len m + 1 ->
  map dID (downloads m') = map dID (downloads m ++ [d]) ->
  idsInOrder m'.
Proof.
  unfold idsInOrder, len. intros I D E.
  rewrite <- (length_map dID (downloads m')), E, length_map.
  rewrite map_app, length_app. simpl List.length.
  rewrite Nat.add_1_r, seq_S, map_app, <- I. simpl. rewrite D.
  f_equal. f_equal. lia.
Qed.

Lemma finish_ids (msg : Msg) (cmds : list Cmd) (m m' : RootModel)
    (r : Returned) :
  finish msg cmds m = Some (m', r) ->
  map dID (downloads m') = map dID (downloads m).
Proof.
  intros H. rewrite finish_some in H. injection H as <- _. simpl.
  apply propagate_ids.
Qed.

(** The IDs of the downloads stay 1, 2, ... in the order of the list, and so
    distinct, as long as [NewDownloadModel] gives a card the ID it is handed
    and every [DownloadStartedMsg] is for a download on the list. *)
Theorem ids_stay_in_order (since : Z) (msg : Msg) (m m' : RootModel)
    (r : Returned) :
  (forall id url filename total,
      dID (NewDownloadModel id url filename total) = id) ->
  (forall id url filename total,
      msg = DownloadStartedMsg id url filename total ->
      findFirst id (downloads m) <> None) ->
  idsInOrder m ->
  Update since msg m = Some (m', r) ->
  idsInOrder m'.
Proof.
  intros New Known I H.
  destruct msg as [id url fn total | id dl sp cn | id el | id err
                   | | w h | key | ]; unfold Update in H.
  - apply finish_ids in H. simpl in H.
    apply (idsInOrder_ids m); [ assumption | ]. rewrite H.
    destruct (findFirst id (downloads m)) eqn:F.
    + now apply onFirst_ids.
    + exfalso. apply (Known id url fn total); [ reflexivity | assumption ].
  - apply finish_ids in H. simpl in H.
    apply (idsInOrder_ids m); [ assumption | ]. rewrite H.
    now apply onFirst_ids.
  - apply finish_ids in H. simpl in H.
    apply (idsInOrder_ids m); [ assumption | ]. rewrite H.
    now apply onFirst_ids.
  - apply finish_ids in H. simpl in H.
    apply (idsInOrder_ids m); [ assumption | ]. rewrite H.
    now apply onFirst_ids.
  - apply finish_ids in H. apply (idsInOrder_ids m); assumption.
  - injection H as <- _. exact I.
  - destruct (state m).
    + unfold dashboardKey in H.
      destruct (isKey key "q" || isKey key "ctrl+c").
      { injection H as <- _. exact I. }
      destruct (isKey key "g").
      { bind_inv H. injection H as <- _. exact I. }
      apply finish_ids in H. apply (idsInOrder_ids m); [ assumption | ].
      rewrite H.
      repeat match goal with
             | |- context [if ?b then _ else _] => destruct b
             end; reflexivity.
    + unfold detailKey in H.
      destruct (isKey key "esc" || isKey key "q" || isKey key "enter").
      * injection H as <- _. exact I.
      * apply finish_ids in H. apply (idsInOrder_ids m); assumption.
    + unfold inputKey in H. cbv zeta in H. unfold moveFocus in H.
      repeat match type of H with
             | (if ?b then _ else _) = Some _ => destruct b
             | bindOpt ?a _ = Some _ =>
               let E := fresh "E" in
               destruct a eqn:E; [ cbn [bindOpt] in H | discriminate H ]
             end;
        injection H as <- _;
        first [ exact I
              | eapply (idsInOrder_next m); [ exact I | apply New | reflexivity ] ].
    + apply finish_ids in H. apply (idsInOrder_ids m); assumption.
  - apply finish_ids in H. apply (idsInOrder_ids m); assumption.
Qed.

End Update.

(** ** A front end to run [Update] on

    A text input is its value and whether it has the focus; typing a key
    appends it; the progress bars have no state of their own. *)

Definition DemoInput : Type := (string * bool)%type.

Definition demoNew (id : Z) (url filename : string) (total : Z)
  : DownloadModel unit :=
  mkDownload unit id url filename total 0 F64.zero 0 0 tt false None.

Definition demoSetValue (s : string) (x : DemoInput) : DemoInput :=
  (s, snd x).

Definition demoFocus (x : DemoInput) : DemoInput := (fst x, true).

Definition demoBlur (x : DemoInput) : DemoInput := (fst x, false).

Definition demoValue (x : DemoInput) : string := fst x.

Definition demoInputUpdate (msg : Msg) (x : DemoInput) : DemoInput * unit :=
  match msg with
  | KeyMsg key => ((fst x ++ key)%string, snd x, tt)
  | _ => (x, tt)
  end.

Definition demoSetPercent (p : F64.float64) (b : unit) : unit * unit :=
  (b, tt).

Definition demoProgressUpdate (msg : Msg) (b : unit) : option unit * unit :=
  (Some b, tt).

Definition demoUpdate
  : Z -> Msg -> RootModel DemoInput unit
    -> option (RootModel DemoInput unit * Returned unit) :=
  Update DemoInput unit unit demoNew demoSetValue demoFocus demoBlur
         demoValue demoInputUpdate demoSetPercent demoProgressUpdate.

(** The input form with a URL typed and the focus on the last input, over a
    list of one download. *)
Definition demoForm : RootModel DemoInput unit :=
  mkRoot DemoInput unit
         [demoNew 1 "http://a/1" "one" 10]
         InputState 0 2
         [("http://a/2"%string, false); (EmptyString, false);
          (EmptyString, true)]
         80 24.

(** [demoForm] after enter. *)
Definition demoStarted : RootModel DemoInput unit :=
  mkRoot DemoInput unit
         [demoNew 1 "http://a/1" "one" 10;
          demoNew 2 "http://a/2" "Resolving..." 0]
         DashboardState 0 2
         [("http://a/2"%string, false); (EmptyString, false);
          (EmptyString, true)]
         80 24.

(** [demoStarted] after the second download has completed. *)
Definition demoDone : RootModel DemoInput unit :=
  mkRoot DemoInput unit
         [demoNew 1 "http://a/1" "one" 10;
          mkDownload unit 2 "http://a/2" "Resolving..." 0 0 F64.zero 7 0 tt
                     true None]
         DashboardState 0 2
         [("http://a/2"%string, false); (EmptyString, false);
          (EmptyString, true)]
         80 24.

Lemma update_keeps_model_witness :
  modelInv DemoInput unit demoForm /\
  exists m' r,
    demoUpdate 0 (KeyMsg "enter") demoForm = Some (m', r)
    /\ modelInv DemoInput unit m'.
Proof.
  assert (I : modelInv DemoInput unit demoForm).
  { unfold modelInv, len. simpl.
    split; [ reflexivity | ]. split; [ lia | ]. split; [ lia | ].
    split; [ left; lia | discriminate ]. }
  split; [ exact I | ].
  exact (update_keeps_model DemoInput unit unit demoNew demoSetValue
           demoFocus demoBlur demoValue demoInputUpdate demoSetPercent
           demoProgressUpdate 0 (KeyMsg "enter") demoForm I).
Defined.

Lemma downloads_are_kept_witness :
  demoUpdate 0 (KeyMsg "enter") demoForm
  = Some (demoStarted, One unit (StartDownload unit 2 "http://a/2" "."))
  /\ growsBy unit (keeps unit) (downloads _ _ demoForm) (downloads _ _ demoStarted).
Proof.
  assert (H : demoUpdate 0 (KeyMsg "enter") demoForm
              = Some (demoStarted,
                      One unit (StartDownload unit 2 "http://a/2" ".")))
    by reflexivity.
  split; [ exact H | ].
  exact (downloads_are_kept DemoInput unit unit demoNew demoSetValue
           demoFocus demoBlur demoValue demoInputUpdate demoSetPercent
           demoProgressUpdate 0 (KeyMsg "enter") demoForm demoStarted _ H).
Defined.

Lemma other_downloads_untouched_witness :
  growsBy unit (untouched unit (DownloadCompleteMsg 2 7))
          (downloads _ _ demoStarted) (downloads _ _ demoDone).
Proof.
  refine (other_downloads_untouched DemoInput unit unit demoNew demoSetValue
            demoFocus demoBlur demoValue demoInputUpdate demoSetPercent
            demoProgressUpdate 0 (DownloadCompleteMsg 2 7) demoStarted
            demoDone _ _).
  reflexivity.
Defined.

Lemma quit_only_from_dashboard_witness :
  demoUpdate 0 (KeyMsg "q") demoStarted
  = Some (demoStarted, One unit (Quit unit)).
Proof.
  apply (proj2 (quit_only_from_dashboard DemoInput unit unit demoNew
                  demoSetValue demoFocus demoBlur demoValue demoInputUpdate
                  demoSetPercent demoProgressUpdate 0 (KeyMsg "q")
                  demoStarted demoStarted)).
  split; [ reflexivity | ]. split; [ reflexivity | left; reflexivity ].
Defined.

Lemma start_needs_a_url_witness :
  state _ _ demoForm = InputState /\ 2 <= focusedInput _ _ demoForm /\
  option_map demoValue (inputAt DemoInput 0 (inputs _ _ demoForm))
  = Some "http://a/2"%string /\
  downloads _ _ demoStarted
  = downloads _ _ demoForm ++ [demoNew 2 "http://a/2" "Resolving..." 0] /\
  state _ _ demoStarted = DashboardState.
Proof.
  assert (H : demoUpdate 0 (KeyMsg "enter") demoForm
              = Some (demoStarted,
                      One unit (StartDownload unit 2 "http://a/2" ".")))
    by reflexivity.
  pose proof (start_needs_a_url DemoInput unit unit demoNew demoSetValue
                demoFocus demoBlur demoValue demoInputUpdate demoSetPercent
                demoProgressUpdate 0 (KeyMsg "enter") demoForm demoStarted
                2 "http://a/2" "." H)
    as (_ & S & F & U & _ & _ & _ & D & S').
  repeat split; assumption.
Defined.

Lemma ids_stay_in_order_witness :
  idsInOrder DemoInput unit demoForm /\ idsInOrder DemoInput unit demoStarted.
Proof.
  assert (I : idsInOrder DemoInput unit demoForm) by reflexivity.
  split; [ exact I | ].
  refine (ids_stay_in_order DemoInput unit unit demoNew demoSetValue
            demoFocus demoBlur demoValue demoInputUpdate demoSetPercent
            demoProgressUpdate 0 (KeyMsg "enter") demoForm demoStarted
            (One unit (StartDownload unit 2 "http://a/2" ".")) _ _ I _).
  - reflexivity.
  - discriminate.
  - reflexivity.
Defined.

End TUI.
